(** * XORNG template-knowledge: the chunker and the keyword search index

    A shallow embedding of [src/utils/chunking.ts] (class [ChunkingUtils])
    and [src/utils/search.ts] (class [SearchIndex]), with the properties of
    the specification stated and settled over it.

    Modelling conventions.
    - A JavaScript string is a Rocq [string]; a character is one code unit
      below 256, on which [toLowerCase], the regular-expression classes
      [\w] and [\s] and [trim] act as ECMAScript defines them.
    - A JavaScript [number] holding an integer is a [Z] (offsets, sizes,
      limits, which may be negative) or a [nat] where the code can only
      produce a count.  The normalised score [score / maxScore] is the exact
      rational; both operands are small integers, for which the rounded
      quotient orders results the same way.
    - [Map<string, V>] whose iteration order is never observed ([chunks],
      [invertedIndex]) is a [gmap string V].  A [Set<string>] and the local
      [scores] map are iterated by [search], so they keep their insertion
      order: a duplicate-free list, and an association list. *)

From Stdlib Require Import ZArith QArith Ascii String DecimalString DecimalNat.
From stdpp Require Import base gmap strings list sorting.

Local Open Scope Z_scope.

(** ** JavaScript string primitives *)

Module Js.

(** *** Character classes *)

Definition code (c : ascii) : N := N_of_ascii c.

Definition between (lo hi : N) (c : ascii) : bool :=
  ((lo <=? code c) && (code c <=? hi))%N.

(** [\s]: white space and line terminators below 256. *)
Definition is_space (c : ascii) : bool :=
  between 9 13 c || (code c =? 32)%N || (code c =? 160)%N.

(** [\w]: [A-Za-z0-9_]. *)
Definition is_word (c : ascii) : bool :=
  between 97 122 c || between 65 90 c || between 48 57 c || (code c =? 95)%N.

(** Upper-case letters below 256: [A-Z] and U+00C0..U+00DE without U+00D7. *)
Definition is_upper (c : ascii) : bool :=
  between 65 90 c || (between 192 222 c && negb (code c =? 215)%N).

Definition lower_char (c : ascii) : ascii :=
  if is_upper c then ascii_of_N (code c + 32) else c.

(** *** Strings *)

Fixpoint map_chars (f : ascii → ascii) (s : string) : string :=
  match s with
  | EmptyString => EmptyString
  | String c r => String (f c) (map_chars f r)
  end.

Fixpoint all_chars (p : ascii → bool) (s : string) : bool :=
  match s with
  | EmptyString => true
  | String c r => p c && all_chars p r
  end.

Definition len (s : string) : Z := Z.of_nat (String.length s).

(** [s.toLowerCase()] *)
Definition toLowerCase (s : string) : string := map_chars lower_char s.

(** [s.replace(/[^\w\s]/g, ' ')] *)
Definition blank_nonword (c : ascii) : ascii :=
  if is_word c || is_space c then c else " "%char.

Definition replace_nonword (s : string) : string := map_chars blank_nonword s.

(** A character that [toLowerCase] then [replace] can leave in a text,
    and one that can stand in a token. *)
Definition token_char (c : ascii) : bool := is_word c && negb (is_upper c).

Definition cleaned (c : ascii) : bool := is_space c || token_char c.

(** Appending one character, [cur + c]. *)
Definition snoc (cur : string) (c : ascii) : string :=
  cur +:+ String c EmptyString.

(** [s.split(/\s+/)].  [cur] is the piece being read; [in_sep] tells that
    the previous character belonged to a separator run. *)
Fixpoint split_ws_go (cur : string) (in_sep : bool) (s : string) : list string :=
  match s with
  | EmptyString => [cur]
  | String c r =>
      if is_space c
      then (if in_sep then split_ws_go EmptyString true r
            else cur :: split_ws_go EmptyString true r)
      else split_ws_go (snoc cur c) false r
  end.

Definition split_ws (s : string) : list string := split_ws_go EmptyString false s.

Definition is_nl (c : ascii) : bool := (code c =? 10)%N.

(** [s.split(/\n\n+/)]: a separator is a maximal run of two or more line
    feeds; a lone line feed stays in its piece. *)
Fixpoint split_blank_go (cur : string) (in_sep : bool) (s : string) : list string :=
  match s with
  | EmptyString => [cur]
  | String c r =>
      if is_nl c then
        if in_sep then split_blank_go EmptyString true r
        else match r with
             | String c' r' =>
                 if is_nl c' then cur :: split_blank_go EmptyString true r'
                 else split_blank_go (snoc cur c) false r
             | EmptyString => split_blank_go (snoc cur c) false r
             end
      else split_blank_go (snoc cur c) false r
  end.

Definition split_blank (s : string) : list string :=
  split_blank_go EmptyString false s.

(** [s.split('\n')] *)
Fixpoint split_lines_go (cur : string) (s : string) : list string :=
  match s with
  | EmptyString => [cur]
  | String c r =>
      if is_nl c then cur :: split_lines_go EmptyString r
      else split_lines_go (snoc cur c) r
  end.

Definition split_lines (s : string) : list string := split_lines_go EmptyString s.

(** [s.trim()] *)
Fixpoint trimStart (s : string) : string :=
  match s with
  | EmptyString => EmptyString
  | String c r => if is_space c then trimStart r else s
  end.

Fixpoint trimEnd (s : string) : string :=
  match s with
  | EmptyString => EmptyString
  | String c r =>
      match trimEnd r with
      | EmptyString => if is_space c then EmptyString else String c EmptyString
      | t => String c t
      end
  end.

Definition trim (s : string) : string := trimEnd (trimStart s).

(** Relative index of [slice]: a negative index counts from the end. *)
Definition rel_index (n i : Z) : Z :=
  if i <? 0 then Z.max (n + i) 0 else Z.min i n.

(** [s.slice(start)] and [s.slice(start, end)] *)
Definition slice (s : string) (start : Z) (stop : option Z) : string :=
  let from := rel_index (len s) start in
  let to := match stop with Some e => rel_index (len s) e | None => len s end in
  substring (Z.to_nat from) (Z.to_nat (to - from)) s.

(** [xs.slice(0, stop)] on an array *)
Definition array_slice0 {A} (xs : list A) (stop : Z) : list A :=
  take (Z.to_nat (rel_index (Z.of_nat (length xs)) stop)) xs.

(** First position [>= pos] at which [t] occurs in the rest [s] of a string,
    [pos] being the position of the head of [s]. *)
Fixpoint find_from (t s : string) (pos : nat) : option nat :=
  if String.prefix t s then Some pos
  else match s with
       | EmptyString => None
       | String _ r => find_from t r (S pos)
       end.

Fixpoint drop_chars (n : nat) (s : string) : string :=
  match n, s with
  | S k, String _ r => drop_chars k r
  | _, _ => s
  end.

(** [s.indexOf(t, from)], with [None] for [-1]. *)
Definition indexOf (s t : string) (from : nat) : option nat :=
  let start := Nat.min from (String.length s) in
  find_from t (drop_chars start s) start.

(** Number of occurrences of a character, [(s.match(/c/g) || []).length]. *)
Fixpoint count_char (c : ascii) (s : string) : Z :=
  match s with
  | EmptyString => 0
  | String d r => (if Ascii.eqb c d then 1 else 0) + count_char c r
  end.

(** [String(n)] for a non-negative integer. *)
Definition of_nat (n : nat) : string := NilZero.string_of_uint (Nat.to_uint n).

(** ["c".repeat(n)] *)
Fixpoint repeat_char (c : ascii) (n : nat) : string :=
  match n with
  | O => EmptyString
  | S k => String c (repeat_char c k)
  end.

End Js.

(** ** Data model ([src/types/index.ts]) *)

Inductive DocumentType :=
  | TText | TMarkdown | TCode | TJson | THtml | TPractice | TStyleGuide.

(** The fields of [DocumentMetadata] that the chunker and the index read;
    the record is carried from a document to its chunks as it is. *)
Record DocumentMetadata := {
  source : string;
  language : option string;
  tags : option (list string);
}.

Module Document.

Record t := {
  id : string;
  type : DocumentType;
  content : string;
  title : option string;
  metadata : DocumentMetadata;
}.

End Document.

Record DocumentChunk := {
  id : string;
  documentId : string;
  content : string;
  title : option string;
  startOffset : Z;
  endOffset : Z;
  metadata : DocumentMetadata;
}.

(** ** The chunker ([src/utils/chunking.ts]) *)

Module ChunkingUtils.

Record t := { chunkSize : Z; overlap : Z }.

(** [constructor(chunkSize = 1000, overlap = 200)] *)
Definition new (chunkSize overlap : option Z) : t :=
  {| chunkSize := default 1000 chunkSize; overlap := default 200 overlap |}.

Definition nl : string := String "010" EmptyString.

Definition nonblank (s : string) : bool :=
  negb (String.eqb (Js.trim s) EmptyString).

(** [splitParagraphs] *)
Definition splitParagraphs (content : string) : list string :=
  filter (λ p, 0 < Js.len (Js.trim p))
         ((λ p, Js.trim p +:+ nl +:+ nl) <$> Js.split_blank content).

(** [line.match(/^#{1,6}\s/)]: one to six [#], then a white-space character. *)
Fixpoint hashes (s : string) : nat * string :=
  match s with
  | String "#" r => let '(n, rest) := hashes r in (S n, rest)
  | _ => (O, s)
  end.

Definition is_header (line : string) : bool :=
  let '(n, rest) := hashes line in
  (1 <=? n)%nat && (n <=? 6)%nat &&
  match rest with String c _ => Js.is_space c | EmptyString => false end.

(** [splitMarkdown]: the loop state is [(sections, currentSection)]. *)
Definition markdown_step (st : list string * string) (line : string)
  : list string * string :=
  let '(sections, currentSection) := st in
  if is_header line then
    ((if nonblank currentSection then sections ++ [currentSection] else sections),
     line +:+ nl)
  else if String.eqb (Js.trim line) EmptyString && nonblank currentSection then
    (sections ++ [currentSection +:+ nl], EmptyString)
  else (sections, currentSection +:+ line +:+ nl).

Definition splitMarkdown (content : string) : list string :=
  let '(sections, currentSection) :=
    fold_left markdown_step (Js.split_lines content) ([], EmptyString) in
  if nonblank currentSection then sections ++ [currentSection] else sections.

(** [splitCode]: the loop state is [(sections, currentSection, braceDepth)]. *)
Definition code_step (st : list string * string * Z) (line : string)
  : list string * string * Z :=
  let '(sections, currentSection, braceDepth) := st in
  let braceDepth := braceDepth + Js.count_char "{" line in
  let braceDepth := braceDepth - Js.count_char "}" line in
  let currentSection := currentSection +:+ line +:+ nl in
  if (braceDepth =? 0) && String.eqb (Js.trim line) EmptyString then
    if nonblank currentSection
    then (sections ++ [currentSection], EmptyString, braceDepth)
    else (sections, currentSection, braceDepth)
  else (sections, currentSection, braceDepth).

Definition splitCode (content : string) : list string :=
  let '(sections, currentSection, _) :=
    fold_left code_step (Js.split_lines content) ([], EmptyString, 0) in
  if nonblank currentSection then sections ++ [currentSection] else sections.

(** [splitSemantically] *)
Definition splitSemantically (content : string) (type : DocumentType) : list string :=
  match type with
  | TMarkdown => splitMarkdown content
  | TCode => splitCode content
  | _ => splitParagraphs content
  end.

Definition chunk_id (document : Document.t) (chunkIndex : nat) : string :=
  Document.id document +:+ "-chunk-" +:+ Js.of_nat chunkIndex.

(** The chunk pushed for the buffer [currentChunk]. *)
Definition emit (document : Document.t) (chunkIndex : nat) (currentChunk : string)
    (startOffset : Z) : DocumentChunk :=
  {| id := chunk_id document chunkIndex;
     documentId := Document.id document;
     content := Js.trim currentChunk;
     title := None;
     startOffset := startOffset;
     endOffset := startOffset + Js.len currentChunk;
     metadata := Document.metadata document |}.

(** State of the section loop of [chunk]. *)
Record acc := {
  chunks : list DocumentChunk;
  currentChunk : string;
  offset : Z;
  chunkIndex : nat;
}.

(** One iteration of [for (const section of sections)]. *)
Definition chunk_step (cfg : t) (document : Document.t) (a : acc) (section : string) : acc :=
  if decide (Js.len (currentChunk a) + Js.len section > chunkSize cfg
             ∧ Js.len (currentChunk a) > 0) then
    let overlapText := Js.slice (currentChunk a) (- overlap cfg) None in
    {| chunks := chunks a ++ [emit document (chunkIndex a) (currentChunk a) (offset a)];
       currentChunk := overlapText +:+ section;
       offset := offset a + Js.len (currentChunk a) - overlap cfg;
       chunkIndex := S (chunkIndex a) |}
  else
    {| chunks := chunks a;
       currentChunk := currentChunk a +:+ section;
       offset := offset a;
       chunkIndex := chunkIndex a |}.

(** [chunk(document)] *)
Definition chunk (cfg : t) (document : Document.t) : list DocumentChunk :=
  let content := Document.content document in
  if decide (Js.len content <= chunkSize cfg) then
    [ {| id := chunk_id document 0;
         documentId := Document.id document;
         content := content;
         title := None;
         startOffset := 0;
         endOffset := Js.len content;
         metadata := Document.metadata document |} ]
  else
    let sections := splitSemantically content (Document.type document) in
    let a := fold_left (chunk_step cfg document) sections
               {| chunks := []; currentChunk := EmptyString; offset := 0; chunkIndex := O |} in
    if decide (Js.len (Js.trim (currentChunk a)) > 0)
    then chunks a ++ [emit document (chunkIndex a) (currentChunk a) (offset a)]
    else chunks a.

(** [mergeSmallChunks]: the loop state is [(merged, current)]; [current]
    is [None] for [null]. *)
Definition merge_step (minSize : Z) (st : list DocumentChunk * option DocumentChunk)
    (chunk : DocumentChunk) : list DocumentChunk * option DocumentChunk :=
  let '(merged, current) := st in
  match current with
  | None => (merged, Some chunk)
  | Some cur =>
      if Js.len (content cur) <? minSize then
        (merged,
         Some {| id := id cur;
                 documentId := documentId cur;
                 content := content cur +:+ nl +:+ content chunk;
                 title := title cur;
                 startOffset := startOffset cur;
                 endOffset := endOffset chunk;
                 metadata := metadata cur |})
      else (merged ++ [cur], Some chunk)
  end.

(** [mergeSmallChunks(chunks, minSize = 100)] *)
Definition mergeSmallChunks (chunks : list DocumentChunk) (minSize : option Z)
  : list DocumentChunk :=
  let '(merged, current) :=
    fold_left (merge_step (default 100 minSize)) chunks ([], None) in
  match current with
  | Some cur => merged ++ [cur]
  | None => merged
  end.

(** The loop of [chunk] keeps the emitted chunks and the buffer short. *)
Definition short (cfg : t) (a : acc) : Prop :=
  Forall (λ c, Js.len (content c) ≤ chunkSize cfg + overlap cfg) (chunks a)
  ∧ Js.len (currentChunk a) ≤ chunkSize cfg + overlap cfg.

(** Every chunk of a document is within [chunkSize + overlap + slack]. *)
Definition within_slack (slack : Z) (cfg : t) (document : Document.t) : Prop :=
  Forall (λ c, Js.len (content c) ≤ chunkSize cfg + overlap cfg + slack)
         (chunk cfg document).

(** *** Notions for the properties of the chunker *)

(** White space only. *)
Definition blank (s : string) : bool := Js.all_chars Js.is_space s.

(** The strings of a list put end to end, [l.join('')]. *)
Definition flat (l : list string) : string := foldr String.append EmptyString l.

(** Offsets that follow one another: the first chunk starts at [start],
    every next one [ov] before the end of the one before it. *)
Fixpoint chain (ov start : Z) (l : list DocumentChunk) : Prop :=
  match l with
  | [] => True
  | c :: r => startOffset c = start ∧ chain ov (endOffset c - ov) r
  end.

Definition next_start (ov start : Z) (l : list DocumentChunk) : Z :=
  match last l with
  | Some c => endOffset c - ov
  | None => start
  end.

(** Invariants of the section loop of [chunk]. *)
Definition labelled (document : Document.t) (a : acc) : Prop :=
  id <$> chunks a = chunk_id document <$> seq 0 (chunkIndex a)
  ∧ Forall (λ c, documentId c = Document.id document
               ∧ metadata c = Document.metadata document ∧ title c = None) (chunks a).

Definition tracked (cfg : t) (a : acc) : Prop :=
  chain (overlap cfg) 0 (chunks a)
  ∧ offset a = next_start (overlap cfg) 0 (chunks a)
  ∧ Forall (λ c, Js.len (content c) ≤ endOffset c - startOffset c) (chunks a).

Definition filled (a : acc) : Prop :=
  Forall (λ c, content c ≠ EmptyString) (chunks a)
  ∧ (currentChunk a = EmptyString ∨ blank (currentChunk a) = false).

(** A chunk that [mergeSmallChunks] leaves alone. *)
Definition big (minSize : option Z) (c : DocumentChunk) : Prop :=
  default 100 minSize ≤ Js.len (content c).

(** The contents of a list of chunks joined by line feeds. *)
Definition texts (l : list DocumentChunk) : string := String.concat nl (content <$> l).

End ChunkingUtils.

(** ** The search index ([src/utils/search.ts]) *)

(** [Set<string>] in insertion order. *)
Module JsSet.

Abbreviation t := (list string).

Definition add (x : string) (s : t) : t :=
  if decide (x ∈ s) then s else s ++ [x].

Definition delete (x : string) (s : t) : t := filter (λ y, y ≠ x) s.

End JsSet.

(** The local [Map<string, number>] of [search], in insertion order. *)
Module Scores.

Abbreviation t := (list (string * nat)).

Fixpoint get (k : string) (m : t) : option nat :=
  match m with
  | [] => None
  | (k', v) :: r => if decide (k' = k) then Some v else get k r
  end.

(** [m.set(k, v)]: an existing key keeps its place, a new one goes last. *)
Fixpoint set (k : string) (v : nat) (m : t) : t :=
  match m with
  | [] => [(k, v)]
  | (k', v') :: r => if decide (k' = k) then (k, v) :: r else (k', v') :: set k v r
  end.

(** [m.get(k) || 0] *)
Definition value (k : string) (m : t) : nat := default 0%nat (get k m).

End Scores.

Module SearchFilters.

Record t := {
  source : option string;
  type : option DocumentType;
  tags : option (list string);
  language : option string;
}.

End SearchFilters.

Record SearchResult := {
  chunk : DocumentChunk;
  score : Q;
  highlights : list string;
}.

Module SearchIndex.

Record t := {
  chunks : gmap string DocumentChunk;
  invertedIndex : gmap string JsSet.t;
}.

Definition empty : t := {| chunks := ∅; invertedIndex := ∅ |}.

(** [tokenize(text)] *)
Definition tokenize (text : string) : list string :=
  filter (λ token, (2 < String.length token)%nat)
         (Js.split_ws (Js.replace_nonword (Js.toLowerCase text))).

(** Body of the loop of [add] for one token. *)
Definition index_token (chunkId : string) (inv : gmap string JsSet.t) (token : string)
  : gmap string JsSet.t :=
  let inv := if decide (is_Some (inv !! token)) then inv else <[token := []]> inv in
  alter (JsSet.add chunkId) token inv.

(** [add(chunk)] *)
Definition add (ix : t) (c : DocumentChunk) : t :=
  {| chunks := <[id c := c]> (chunks ix);
     invertedIndex := fold_left (index_token (id c)) (tokenize (content c)) (invertedIndex ix) |}.

(** Body of the loop of [remove] for one token:
    [this.invertedIndex.get(token)?.delete(chunkId)]. *)
Definition unindex_token (chunkId : string) (inv : gmap string JsSet.t) (token : string)
  : gmap string JsSet.t :=
  alter (JsSet.delete chunkId) token inv.

(** [remove(chunkId)]: the index afterwards and the returned boolean. *)
Definition remove (ix : t) (chunkId : string) : t * bool :=
  match chunks ix !! chunkId with
  | None => (ix, false)
  | Some c =>
      ({| chunks := delete chunkId (chunks ix);
          invertedIndex :=
            fold_left (unindex_token chunkId) (tokenize (content c)) (invertedIndex ix) |},
       bool_decide (is_Some (chunks ix !! chunkId)))
  end.

(** [count()] *)
Definition count (ix : t) : nat := size (chunks ix).

(** [clear()] *)
Definition clear (ix : t) : t := empty.

(** The posting set of a token, empty when the token has none. *)
Definition postings (ix : t) (token : string) : JsSet.t :=
  default [] (invertedIndex ix !! token).

(** [scores.set(chunkId, (scores.get(chunkId) || 0) + 1)] *)
Definition bump (scores : Scores.t) (chunkId : string) : Scores.t :=
  Scores.set chunkId (Scores.value chunkId scores + 1)%nat scores.

(** Body of [for (const token of queryTokens)]. *)
Definition score_token (ix : t) (scores : Scores.t) (token : string) : Scores.t :=
  match invertedIndex ix !! token with
  | Some matchingChunks => fold_left bump matchingChunks scores
  | None => scores
  end.

Definition raw_scores (ix : t) (queryTokens : list string) : Scores.t :=
  fold_left (score_token ix) queryTokens [].

(** [Math.max(...scores.values(), 1)] *)
Definition max_score (scores : Scores.t) : nat :=
  foldr Nat.max 1%nat (snd <$> scores).

(** The three filter tests; [true] means that the chunk is skipped.  An
    empty string is falsy, an empty array is not. *)
Definition truthy (s : option string) : option string :=
  match s with Some EmptyString => None | _ => s end.

Definition skipped (filters : option SearchFilters.t) (c : DocumentChunk) : bool :=
  match filters with
  | None => false
  | Some f =>
      match truthy (SearchFilters.source f) with
      | Some s => negb (String.eqb (source (metadata c)) s)
      | None => false
      end
      || match truthy (SearchFilters.language f) with
         | Some l => negb (bool_decide (language (metadata c) = Some l))
         | None => false
         end
      || match SearchFilters.tags f with
         | Some ts =>
             negb (existsb (λ tg, match tags (metadata c) with
                                  | Some cts => bool_decide (tg ∈ cts)
                                  | None => false
                                  end) ts)
         | None => false
         end
  end.

(** The snippet pushed by [getHighlights] for a match at [index]. *)
Definition snippet (content token : string) (windowSize : Z) (index : nat) : string :=
  let start := Z.max 0 (Z.of_nat index - windowSize) in
  let stop := Z.min (Js.len content) (Z.of_nat index + Js.len token + windowSize) in
  let s := Js.slice content start (Some stop) in
  let s := if 0 <? start then "..." +:+ s else s in
  if stop <? Js.len content then s +:+ "..." else s.

(** [while (index !== -1 && highlights.length < 3)].  Each turn pushes one
    snippet, so the guard on the length is kept as [room], the number of
    snippets still allowed: [room = 3 - highlights.length]. *)
Fixpoint highlight_loop (room : nat) (content lowerContent token : string)
    (windowSize : Z) (index : option nat) (highlights : list string) : list string :=
  match room, index with
  | S room', Some i =>
      highlight_loop room' content lowerContent token windowSize
        (Js.indexOf lowerContent token (i + 1))
        (highlights ++ [snippet content token windowSize i])
  | _, _ => highlights
  end.

(** [getHighlights(content, queryTokens, windowSize = 50)] *)
Definition getHighlights (content : string) (queryTokens : list string)
    (windowSize : option Z) : list string :=
  let windowSize := default 50 windowSize in
  let lowerContent := Js.toLowerCase content in
  let highlights :=
    fold_left (λ highlights token,
                 highlight_loop (3 - length highlights) content lowerContent token
                   windowSize (Js.indexOf lowerContent token 0) highlights)
              queryTokens [] in
  Js.array_slice0 highlights 3.

(** Body of [for (const [chunkId, score] of scores)]. *)
Definition result_of (ix : t) (filters : option SearchFilters.t) (queryTokens : list string)
    (maxScore : nat) (entry : string * nat) : option SearchResult :=
  match chunks ix !! entry.1 with
  | None => None
  | Some c =>
      if skipped filters c then None
      else Some {| chunk := c;
                   score := Z.of_nat entry.2 # Pos.of_nat maxScore;
                   highlights := getHighlights (content c) queryTokens None |}
  end.

(** [results.sort((a, b) => b.score - a.score)]: the sort is stable, and
    [a] stays before [b] unless [b.score - a.score > 0]. *)
Fixpoint insert_result (a : SearchResult) (rs : list SearchResult) : list SearchResult :=
  match rs with
  | [] => [a]
  | b :: rs' =>
      if Qlt_le_dec (score a) (score b) then b :: insert_result a rs' else a :: rs
  end.

Definition sort_results (rs : list SearchResult) : list SearchResult :=
  foldr insert_result [] rs.

(** [search(query, limit = 10, filters)] *)
Definition search (ix : t) (query : string) (limit : option Z)
    (filters : option SearchFilters.t) : list SearchResult :=
  let limit := default 10 limit in
  let queryTokens := tokenize query in
  let scores := raw_scores ix queryTokens in
  let maxScore := max_score scores in
  let results := omap (result_of ix filters queryTokens maxScore) scores in
  Js.array_slice0 (sort_results results) limit.

(** The raw score of a chunk id for a query, [0] when it has none. *)
Definition raw_score (ix : t) (query chunkId : string) : nat :=
  Scores.value chunkId (raw_scores ix (tokenize query)).

(** The results of [search] before sorting and cutting. *)
Definition matches (ix : t) (query : string) (filters : option SearchFilters.t)
  : list SearchResult :=
  let queryTokens := tokenize query in
  let scores := raw_scores ix queryTokens in
  omap (result_of ix filters queryTokens (max_score scores)) scores.

(** [a] may stand before [b] in a list sorted by score, highest first. *)
Definition desc (a b : SearchResult) : Prop := (score b <= score a)%Q.

(** The count that a score over distinct query terms would be. *)
Definition distinct_term_count (ix : t) (query chunkId : string) : nat :=
  length (filter (λ token, chunkId ∈ postings ix token) (remove_dups (tokenize query))).

(** Sequences of index operations. *)
Inductive op :=
  | Add (c : DocumentChunk)
  | Remove (chunkId : string)
  | Clear.

Definition step (ix : t) (o : op) : t :=
  match o with
  | Add c => add ix c
  | Remove chunkId => (remove ix chunkId).1
  | Clear => clear ix
  end.

Definition run (ops : list op) : t := fold_left step ops empty.

(** Two facts that hold of every index built by [add], [remove] and [clear]:
    a chunk is stored under its own id, and a posting set has no repetition. *)
Definition keyed (ix : t) : Prop :=
  ∀ k c, chunks ix !! k = Some c → id c = k.

Definition sets (ix : t) : Prop :=
  ∀ tok s, invertedIndex ix !! tok = Some s → NoDup s.

(** The index-consistency invariant: a posting refers to a stored chunk
    whose stored content has the token. *)
Definition consistent (ix : t) : Prop :=
  ∀ token chunkId, chunkId ∈ postings ix token →
    ∃ c, chunks ix !! chunkId = Some c ∧ token ∈ tokenize (content c).

(** [add ix c] is an update that keeps every token of the content stored so
    far under [id c]; vacuous when the id is not stored. *)
Definition keeps_tokens (ix : t) (c : DocumentChunk) : bool :=
  match chunks ix !! id c with
  | None => true
  | Some old =>
      forallb (λ token, bool_decide (token ∈ tokenize (content c)))
              (tokenize (content old))
  end.

(** A sequence of operations, run from [ix], each of whose [add] keeps the
    tokens stored under its id. *)
Fixpoint disciplined (ix : t) (ops : list op) : bool :=
  match ops with
  | [] => true
  | o :: ops' =>
      match o with Add c => keeps_tokens ix c | _ => true end
      && disciplined (step ix o) ops'
  end.

(** Every entry of a score map counts at least one match. *)
Definition positive_values (m : Scores.t) : Prop := Forall (λ e, (1 ≤ e.2)%nat) m.

(** [t] stands somewhere in [s]. *)
Definition occurs (t s : string) : Prop := ∃ pre post, s = pre +:+ t +:+ post.

End SearchIndex.

(** ** The document store ([src/utils/store.ts]) *)

(** [Map<string, V>] in insertion order, for a map that is iterated. *)
Module JsMap.

Section map.
Context {V : Type}.

Fixpoint get (k : string) (m : list (string * V)) : option V :=
  match m with
  | [] => None
  | (k', v) :: r => if decide (k' = k) then Some v else get k r
  end.

(** [m.set(k, v)]: an existing key keeps its place, a new one goes last. *)
Fixpoint set (k : string) (v : V) (m : list (string * V)) : list (string * V) :=
  match m with
  | [] => [(k, v)]
  | (k', v') :: r => if decide (k' = k) then (k, v) :: r else (k', v') :: set k v r
  end.

Fixpoint delete (k : string) (m : list (string * V)) : list (string * V) :=
  match m with
  | [] => []
  | (k', v') :: r => if decide (k' = k) then r else (k', v') :: delete k r
  end.

Definition has (k : string) (m : list (string * V)) : bool :=
  bool_decide (is_Some (get k m)).

Definition values (m : list (string * V)) : list V := m.*2.

Definition size (m : list (string * V)) : nat := length m.

End map.

End JsMap.

#[global] Instance DocumentType_eq_dec : EqDecision DocumentType.
Proof. solve_decision. Defined.

Module DocumentStore.

(** [StoredDocument]: the fields of the document ([...document]) and the
    two time stamps. *)
Record StoredDocument := {
  document : Document.t;
  storedAt : string;
  updatedAt : string;
}.

Abbreviation t := (list (string * StoredDocument)).

Definition empty : t := [].

(** [add(document)]; [now] is the value of [new Date().toISOString()]. *)
Definition add (st : t) (now : string) (document : Document.t) : t :=
  let existing := JsMap.get (Document.id document) st in
  let stored :=
    {| document := document;
       storedAt := match existing with
                   | Some e => if String.eqb (storedAt e) EmptyString then now
                               else storedAt e
                   | None => now
                   end;
       updatedAt := now |} in
  JsMap.set (Document.id document) stored st.

Definition get (st : t) (id : string) : option StoredDocument := JsMap.get id st.

Definition has (st : t) (id : string) : bool := JsMap.has id st.

(** [delete(id)]: the store afterwards and the returned boolean. *)
Definition delete (st : t) (id : string) : t * bool :=
  (JsMap.delete id st, JsMap.has id st).

Definition all (st : t) : list StoredDocument := JsMap.values st.

Definition count (st : t) : nat := JsMap.size st.

Definition getBySource (st : t) (src : string) : list StoredDocument :=
  filter (λ d, source (Document.metadata (document d)) = src) (JsMap.values st).

Definition getByType (st : t) (type : DocumentType) : list StoredDocument :=
  filter (λ d, Document.type (document d) = type) (JsMap.values st).

(** [doc.metadata.tags?.includes(tag)] *)
Definition has_tag (tag : string) (d : StoredDocument) : bool :=
  match tags (Document.metadata (document d)) with
  | Some ts => bool_decide (tag ∈ ts)
  | None => false
  end.

Definition getByTag (st : t) (tag : string) : list StoredDocument :=
  filter (λ d, has_tag tag d = true) (JsMap.values st).

Definition clear (st : t) : t := empty.

(** Sequences of store operations; an [add] comes with its time stamp. *)
Inductive op :=
  | Add (now : string) (document : Document.t)
  | Delete (id : string)
  | Clear.

Definition step (st : t) (o : op) : t :=
  match o with
  | Add now document => add st now document
  | Delete id => (delete st id).1
  | Clear => clear st
  end.

Definition run (ops : list op) : t := fold_left step ops empty.

(** The ids of the documents of [all()], in its order. *)
Definition ids (st : t) : list string := (Document.id ∘ document) <$> all st.

(** Every key is there once, and is the id of the document under it. *)
Definition well_keyed (st : t) : Prop :=
  NoDup st.*1 ∧ Forall (λ e, Document.id (document e.2) = e.1) st.

End DocumentStore.

(** ** The provider ([src/base/BaseKnowledgeProvider.ts]): indexing *)

Module Provider.

(** The store, the index and the chunker of a provider. *)
Record t := {
  store : DocumentStore.t;
  index : SearchIndex.t;
  chunking : ChunkingUtils.t;
}.

(** [x || d] on a number that may be missing: [0] is falsy. *)
Definition or_default (x : option Z) (d : Z) : Z :=
  match x with
  | Some v => if v =? 0 then d else v
  | None => d
  end.

(** The chunker built by the constructor from [providerConfig.chunkSize]
    and [providerConfig.chunkOverlap]. *)
Definition new_chunking (chunkSize chunkOverlap : option Z) : ChunkingUtils.t :=
  ChunkingUtils.new (Some (or_default chunkSize 1000)) (Some (or_default chunkOverlap 200)).

Definition new (chunkSize chunkOverlap : option Z) : t :=
  {| store := DocumentStore.empty;
     index := SearchIndex.empty;
     chunking := new_chunking chunkSize chunkOverlap |}.

(** [indexDocument(document)]: store the document, chunk it, add every
    chunk to the index.  [now] is the time stamp taken by the store. *)
Definition indexDocument (p : t) (now : string) (document : Document.t) : t :=
  {| store := DocumentStore.add (store p) now document;
     index := fold_left SearchIndex.add (ChunkingUtils.chunk (chunking p) document)
                (index p);
     chunking := chunking p |}.

(** [getDocument(id)] *)
Definition getDocument (p : t) (id : string) : option DocumentStore.StoredDocument :=
  DocumentStore.get (store p) id.

End Provider.

(** ** Sample data *)

Module Sample.

Definition meta (src : string) : DocumentMetadata :=
  {| source := src; language := None; tags := None |}.

Definition chunk_of (i c : string) : DocumentChunk :=
  {| id := i; documentId := "d"; content := c; title := None;
     startOffset := 0; endOffset := 0; metadata := meta "s" |}.

Definition text_doc (i c : string) : Document.t :=
  {| Document.id := i; Document.type := TText; Document.content := c;
     Document.title := None; Document.metadata := meta "s" |}.

(** The document of the example scenario: 1500 times the letter [A]. *)
Definition d1 : Document.t := text_doc "d1" (Js.repeat_char "A" 1500).

Definition blank_line : string := ChunkingUtils.nl +:+ ChunkingUtils.nl.

Definition three_paragraphs : Document.t :=
  text_doc "d3" ("aaaa" +:+ blank_line +:+ "bbbb" +:+ blank_line +:+ "cccc").

Abbreviation Bs n := (Js.repeat_char "B" n).

(** A two-letter paragraph, then one paragraph of [n] letters. *)
Definition long_paragraph (n : nat) : Document.t :=
  text_doc "d2" (String "a" (String "a" (String "010" (String "010" (Bs n))))).

End Sample.

(** * Properties *)

(** ** The model on small inputs *)

Module Examples.
Import Sample.

Example split_on_white_space :
  Js.split_ws " a  b " = [""; "a"; "b"; ""] ∧ Js.split_ws "" = [""].
Proof. by vm_compute. Qed.

Example split_on_blank_lines :
  Js.split_blank ("a" +:+ blank_line +:+ ChunkingUtils.nl +:+ "b" +:+ ChunkingUtils.nl +:+ "c")
  = ["a"; "b" +:+ ChunkingUtils.nl +:+ "c"].
Proof. by vm_compute. Qed.

Example slice_from_the_end :
  Js.slice "abcdef" (-2) None = "ef" ∧ Js.slice "abcdef" (-0) None = "abcdef"
  ∧ Js.slice "ab" (-5) None = "ab" ∧ Js.slice "abcdef" 1 (Some 3) = "bc"
  ∧ Js.array_slice0 [1; 2; 3] (-1) = [1; 2] ∧ Js.array_slice0 [1; 2; 3] 10 = [1; 2; 3].
Proof. by vm_compute. Qed.

Example index_of :
  Js.indexOf "abcabc" "bc" 0 = Some 1%nat ∧ Js.indexOf "abcabc" "bc" 2 = Some 4%nat
  ∧ Js.indexOf "abcabc" "bc" 5 = None ∧ Js.indexOf "abc" "" 7 = Some 3%nat.
Proof. by vm_compute. Qed.

Example trim_and_case :
  Js.trim "  a b  " = "a b" ∧ Js.toLowerCase "Hello, World" = "hello, world"
  ∧ Js.of_nat 12 = "12".
Proof. by vm_compute. Qed.

Example tokenize_text :
  SearchIndex.tokenize "Hello, World! it's a foo_bar ab" = ["hello"; "world"; "foo_bar"].
Proof. by vm_compute. Qed.

Example markdown_sections :
  ChunkingUtils.splitMarkdown
    ("# a" +:+ blank_line +:+ "b" +:+ ChunkingUtils.nl +:+ "## c" +:+ ChunkingUtils.nl)
  = ["# a" +:+ blank_line; "b" +:+ ChunkingUtils.nl; "## c" +:+ blank_line].
Proof. by vm_compute. Qed.

Example code_sections :
  ChunkingUtils.splitCode
    ("f {" +:+ blank_line +:+ "}" +:+ blank_line +:+ "g")
  = ["f {" +:+ blank_line +:+ "}" +:+ blank_line; "g" +:+ ChunkingUtils.nl].
Proof. by vm_compute. Qed.

(** Three paragraphs of four letters, [chunkSize = 8], [overlap = 2]. *)
Example chunk_three_paragraphs :
  (λ c, (id c, content c, startOffset c, endOffset c))
    <$> ChunkingUtils.chunk (ChunkingUtils.new (Some 8) (Some 2)) three_paragraphs
  = [("d3-chunk-0", "aaaa", 0, 6);
     ("d3-chunk-1", "bbbb", 4, 12);
     ("d3-chunk-2", "cccc", 10, 18)].
Proof. by vm_compute. Qed.

(** With [overlap = 0] the next buffer starts with the whole previous one:
    [slice(-0)] is [slice(0)]. *)
Example chunk_without_overlap :
  (λ c, (content c, startOffset c, endOffset c))
    <$> ChunkingUtils.chunk (ChunkingUtils.new (Some 8) (Some 0)) three_paragraphs
  = [("aaaa", 0, 6);
     ("aaaa" +:+ blank_line +:+ "bbbb", 6, 18);
     ("aaaa" +:+ blank_line +:+ "bbbb" +:+ blank_line +:+ "cccc", 18, 36)].
Proof. by vm_compute. Qed.

(** The second example scenario of the specification: two chunks, one with
    [database] and one with [cache], both found with score 1 and one
    highlight each. *)
Example search_two_terms :
  let ix := SearchIndex.run [SearchIndex.Add (chunk_of "a" "a database");
                             SearchIndex.Add (chunk_of "b" "the cache")] in
  (λ r, (id (chunk r), score r, highlights r))
    <$> SearchIndex.search ix "database cache" (Some 10) None
  = [("a", 1 # 1, ["a database"]); ("b", 1 # 1, ["the cache"])].
Proof. by vm_compute. Qed.

(** The source filter keeps the chunks of that source only. *)
Example search_source_filter :
  let other := {| id := "b"; documentId := "d"; content := "foo"; title := None;
                  startOffset := 0; endOffset := 0; metadata := meta "t" |} in
  let ix := SearchIndex.run [SearchIndex.Add (chunk_of "a" "foo"); SearchIndex.Add other] in
  let only src := {| SearchFilters.source := Some src; SearchFilters.type := None;
                     SearchFilters.tags := None; SearchFilters.language := None |} in
  (λ r, id (chunk r)) <$> SearchIndex.search ix "foo" None (Some (only "t")) = ["b"]
  ∧ (λ r, id (chunk r)) <$> SearchIndex.search ix "foo" None (Some (only "")) = ["a"; "b"].
Proof. by vm_compute. Qed.

End Examples.

(** ** Facts on the insertion-ordered containers *)

Module ContainerFacts.

Lemma set_add_elem x y (s : JsSet.t) : y ∈ JsSet.add x s ↔ y = x ∨ y ∈ s.
Proof.
  unfold JsSet.add. destruct (decide (x ∈ s)) as [Hx|Hx].
  - split; [auto|]. by intros [->|?].
  - rewrite elem_of_app, list_elem_of_singleton. tauto.
Qed.

Lemma set_add_NoDup x (s : JsSet.t) : NoDup s → NoDup (JsSet.add x s).
Proof.
  intros Hs. unfold JsSet.add. case_decide; [done|].
  apply NoDup_app. split_and!; [done| |apply NoDup_singleton].
  intros y Hy ->%list_elem_of_singleton. done.
Qed.

Lemma set_delete_elem x y (s : JsSet.t) : y ∈ JsSet.delete x s ↔ y ≠ x ∧ y ∈ s.
Proof. unfold JsSet.delete. by rewrite list_elem_of_filter. Qed.

Lemma set_delete_NoDup x (s : JsSet.t) : NoDup s → NoDup (JsSet.delete x s).
Proof. apply NoDup_filter. Qed.

Lemma scores_get_set k k' v (m : Scores.t) :
  Scores.get k (Scores.set k' v m) = if decide (k' = k) then Some v else Scores.get k m.
Proof.
  induction m as [|[k0 v0] m IH]; simpl.
  - repeat case_decide; done.
  - destruct (decide (k0 = k')) as [->|]; simpl.
    + destruct (decide (k' = k)); done.
    + rewrite IH. destruct (decide (k0 = k)), (decide (k' = k)); congruence.
Qed.

Lemma scores_set_keys k v (m : Scores.t) :
  (Scores.set k v m).*1 = if decide (k ∈ m.*1) then m.*1 else m.*1 ++ [k].
Proof.
  induction m as [|[k0 v0] m IH]; csimpl.
  - destruct (decide (k ∈ [])) as [H|H]; [by apply elem_of_nil in H|done].
  - destruct (decide (k0 = k)) as [->|Hne]; csimpl.
    + rewrite decide_True by left. done.
    + rewrite IH. destruct (decide (k ∈ m.*1)) as [Hin|Hin].
      * rewrite decide_True by (by right). done.
      * rewrite decide_False; [done|]. intros [?|?]%elem_of_cons; congruence.
Qed.

Lemma scores_set_NoDup k v (m : Scores.t) : NoDup m.*1 → NoDup (Scores.set k v m).*1.
Proof.
  intros Hm. rewrite scores_set_keys. case_decide; [done|].
  apply NoDup_app. split_and!; [done| |apply NoDup_singleton].
  intros y Hy ->%list_elem_of_singleton. done.
Qed.

Lemma scores_get_Some k v (m : Scores.t) : Scores.get k m = Some v → (k, v) ∈ m.
Proof.
  induction m as [|[k0 v0] m IH]; simpl; [done|].
  destruct (decide (k0 = k)) as [->|]; [intros [= ->]; left|intros ?; right; auto].
Qed.

Lemma scores_get_None k (m : Scores.t) : Scores.get k m = None ↔ k ∉ m.*1.
Proof.
  induction m as [|[k0 v0] m IH]; csimpl.
  - split; [intros _ H; by apply elem_of_nil in H|done].
  - destruct (decide (k0 = k)) as [->|].
    + split; [done|]. intros []. left.
    + rewrite IH, not_elem_of_cons. split; [intros ?; split; congruence|by intros [_ ?]].
Qed.

End ContainerFacts.

(** ** Facts on [add] and [remove] *)

Module IndexFacts.
Import ContainerFacts.
Import SearchIndex.

Lemma index_token_lookup cid (inv : gmap string JsSet.t) tok t :
  index_token cid inv tok !! t
  = if decide (tok = t) then Some (JsSet.add cid (default [] (inv !! tok))) else inv !! t.
Proof.
  unfold index_token. destruct (decide (tok = t)) as [->|Hne].
  - rewrite lookup_alter_eq. destruct (decide (is_Some (inv !! t))) as [[s Hs]|Hn].
    + by rewrite Hs.
    + rewrite lookup_insert_eq. apply eq_None_not_Some in Hn. by rewrite Hn.
  - rewrite lookup_alter_ne by done.
    destruct (decide (is_Some (inv !! tok))); [done|]. by rewrite lookup_insert_ne.
Qed.

Lemma index_tokens_elem cid toks (inv : gmap string JsSet.t) t x :
  x ∈ default [] (fold_left (index_token cid) toks inv !! t)
  ↔ x ∈ default [] (inv !! t) ∨ (x = cid ∧ t ∈ toks).
Proof.
  revert inv. induction toks as [|tok toks IH]; intros inv; simpl.
  - split; [auto|]. intros [?|[_ H]]; [done|]. by apply elem_of_nil in H.
  - rewrite IH, index_token_lookup, elem_of_cons.
    destruct (decide (tok = t)) as [->|Hne]; simpl.
    + rewrite set_add_elem. tauto.
    + split; [tauto|]. intros [?|[? [?|?]]]; try tauto. congruence.
Qed.

Lemma index_tokens_NoDup cid toks (inv : gmap string JsSet.t) :
  (∀ t s, inv !! t = Some s → NoDup s) →
  ∀ t s, fold_left (index_token cid) toks inv !! t = Some s → NoDup s.
Proof.
  revert inv. induction toks as [|tok toks IH]; intros inv Hinv; simpl; [done|].
  apply IH. intros t s. rewrite index_token_lookup.
  destruct (decide (tok = t)) as [->|Hne]; [|apply Hinv].
  intros [= <-]. apply set_add_NoDup.
  destruct (inv !! t) as [s'|] eqn:E; simpl; [by eapply Hinv|apply NoDup_nil_2].
Qed.

Lemma unindex_token_lookup cid (inv : gmap string JsSet.t) tok t :
  unindex_token cid inv tok !! t
  = if decide (tok = t) then JsSet.delete cid <$> inv !! t else inv !! t.
Proof.
  unfold unindex_token. destruct (decide (tok = t)) as [->|Hne].
  - by rewrite lookup_alter_eq.
  - by rewrite lookup_alter_ne.
Qed.

Lemma unindex_tokens_elem cid toks (inv : gmap string JsSet.t) t x :
  x ∈ default [] (fold_left (unindex_token cid) toks inv !! t)
  ↔ x ∈ default [] (inv !! t) ∧ (x = cid → t ∉ toks).
Proof.
  revert inv. induction toks as [|tok toks IH]; intros inv; simpl.
  - split; [|tauto]. intros Hx; split; [done|]. intros _ Hn. by apply elem_of_nil in Hn.
  - rewrite IH, unindex_token_lookup, not_elem_of_cons.
    destruct (decide (tok = t)) as [->|Hne].
    + destruct (inv !! t) as [s|]; simpl.
      * rewrite set_delete_elem. split; [|tauto].
        intros [[? ?] ?]. split; [done|]. intros ->. done.
      * split; intros [H0 _]; by apply elem_of_nil in H0.
    + split; [|tauto]. intros [? H]. split; [done|]. intros Hx. split; [congruence|auto].
Qed.

Lemma unindex_tokens_NoDup cid toks (inv : gmap string JsSet.t) :
  (∀ t s, inv !! t = Some s → NoDup s) →
  ∀ t s, fold_left (unindex_token cid) toks inv !! t = Some s → NoDup s.
Proof.
  revert inv. induction toks as [|tok toks IH]; intros inv Hinv; simpl; [done|].
  apply IH. intros t s. rewrite unindex_token_lookup.
  destruct (decide (tok = t)) as [->|Hne]; [|apply Hinv].
  destruct (inv !! t) as [s'|] eqn:E; simpl; [|done].
  intros [= <-]. apply set_delete_NoDup. by eapply Hinv.
Qed.

Lemma postings_add ix c t x :
  x ∈ postings (add ix c) t ↔ x ∈ postings ix t ∨ (x = id c ∧ t ∈ tokenize (content c)).
Proof. apply index_tokens_elem. Qed.

Lemma postings_remove ix cid c t x :
  chunks ix !! cid = Some c →
  x ∈ postings (remove ix cid).1 t
  ↔ x ∈ postings ix t ∧ (x = cid → t ∉ tokenize (content c)).
Proof. intros Hc. unfold remove. rewrite Hc. apply unindex_tokens_elem. Qed.

Lemma remove_absent ix cid : chunks ix !! cid = None → remove ix cid = (ix, false).
Proof. intros Hc. unfold remove. by rewrite Hc. Qed.

Lemma step_keyed ix o : keyed ix → keyed (step ix o).
Proof.
  intros Hk. destruct o as [c|cid|]; unfold keyed; simpl.
  - intros k c'. rewrite lookup_insert.
    destruct (decide (id c = k)); [by intros [= <-]|apply Hk].
  - unfold remove. destruct (chunks ix !! cid) eqn:E; simpl; [|done].
    intros k c'. rewrite lookup_delete. destruct (decide (cid = k)); [done|apply Hk].
  - intros k c'. by rewrite lookup_empty.
Qed.

Lemma step_sets ix o : sets ix → sets (step ix o).
Proof.
  intros Hs. destruct o as [c|cid|]; unfold sets; simpl.
  - by apply index_tokens_NoDup.
  - unfold remove. destruct (chunks ix !! cid) eqn:E; simpl; [|done].
    by apply unindex_tokens_NoDup.
  - intros tok s. by rewrite lookup_empty.
Qed.

Lemma run_app ops o : run (ops ++ [o]) = step (run ops) o.
Proof. unfold run. by rewrite fold_left_app. Qed.

Lemma run_keyed ops : keyed (run ops).
Proof.
  induction ops as [|o ops IH] using rev_ind.
  - intros k c. unfold run. simpl. by rewrite lookup_empty.
  - rewrite run_app. by apply step_keyed.
Qed.

Lemma run_sets ops : sets (run ops).
Proof.
  induction ops as [|o ops IH] using rev_ind.
  - intros k c. unfold run. simpl. by rewrite lookup_empty.
  - rewrite run_app. by apply step_sets.
Qed.

End IndexFacts.

(** ** The search index: claims C1, C7 *)

Module IndexProps.
Import ContainerFacts IndexFacts.
Import SearchIndex Sample.

Lemma empty_consistent : consistent empty.
Proof.
  intros token chunkId. unfold postings. simpl. rewrite lookup_empty. simpl.
  intros H. by apply elem_of_nil in H.
Qed.

Lemma add_consistent ix c :
  keeps_tokens ix c = true → consistent ix → consistent (add ix c).
Proof.
  intros Hk Hc token chunkId. rewrite postings_add. simpl.
  intros [Hin|[-> Hin]].
  - destruct (Hc _ _ Hin) as (c' & Hc' & Htok).
    destruct (decide (id c = chunkId)) as [<-|Hne].
    + exists c. rewrite lookup_insert_eq. split; [done|].
      unfold keeps_tokens in Hk. rewrite Hc' in Hk.
      rewrite forallb_forall in Hk. apply list_elem_of_In, Hk in Htok.
      by apply bool_decide_eq_true in Htok.
    + exists c'. by rewrite lookup_insert_ne.
  - exists c. by rewrite lookup_insert_eq.
Qed.

Lemma remove_consistent ix chunkId : consistent ix → consistent (remove ix chunkId).1.
Proof.
  intros Hc. destruct (chunks ix !! chunkId) as [c|] eqn:E.
  - intros token x. rewrite (postings_remove _ _ c) by done.
    intros [Hin Hx]. destruct (Hc _ _ Hin) as (c' & Hc' & Htok).
    unfold remove. rewrite E. simpl.
    destruct (decide (chunkId = x)) as [->|Hne].
    + exfalso. apply Hx; [done|]. congruence.
    + exists c'. by rewrite lookup_delete_ne.
  - by rewrite remove_absent.
Qed.

Lemma disciplined_consistent ops ix :
  consistent ix → disciplined ix ops = true → consistent (fold_left step ops ix).
Proof.
  revert ix. induction ops as [|o ops IH]; intros ix Hc Hd; simpl in *; [done|].
  apply andb_true_iff in Hd as [Ho Hd]. apply IH; [|done].
  destruct o as [c|chunkId|]; simpl.
  - by apply add_consistent.
  - by apply remove_consistent.
  - apply empty_consistent.
Qed.

Lemma remove_postings ix chunkId token :
  consistent ix → chunkId ∉ postings (remove ix chunkId).1 token.
Proof.
  intros Hc Hin. destruct (chunks ix !! chunkId) as [c|] eqn:E.
  - rewrite (postings_remove _ _ c) in Hin by done. destruct Hin as [Hin Hx].
    destruct (Hc _ _ Hin) as (c' & Hc' & Htok). apply Hx; [done|]. congruence.
  - rewrite remove_absent in Hin by done. simpl in Hin.
    destruct (Hc _ _ Hin) as (c' & Hc' & _). congruence.
Qed.

Lemma remove_present ix chunkId c :
  chunks ix !! chunkId = Some c →
  remove ix chunkId
  = ({| chunks := delete chunkId (chunks ix);
        invertedIndex := fold_left (unindex_token chunkId) (tokenize (content c))
                           (invertedIndex ix) |}, true).
Proof.
  intros Hc. unfold remove. rewrite Hc. reflexivity.
Qed.

(** C1, as stated, fails: re-adding the id ["a"] with other content leaves
    ["a"] in the posting set of ["foo"], a token that the stored content
    ["bar"] does not have. *)
Lemma readd_leaves_stale_posting :
  ¬ consistent (run [Add (chunk_of "a" "foo"); Add (chunk_of "a" "bar")]).
Proof.
  intros H. destruct (H "foo" "a") as (c & Hc & Htok).
  - vm_compute. left.
  - vm_compute in Hc. injection Hc as <-. vm_compute in Htok.
    apply list_elem_of_singleton in Htok. discriminate.
Qed.

(** C1, amended: over every sequence of [add], [remove] and [clear] in
    which no [add] drops a token of the content stored under its id (an id
    that is not stored, one re-added after [remove], the same content
    again), a posting [chunkId ∈ postings token] implies that [chunkId] is
    stored and that [token] is a token of its stored content; and [remove]
    then takes the id out of every posting set. *)
Theorem index_consistency ops :
  disciplined empty ops = true →
  consistent (run ops)
  ∧ ∀ chunkId token, chunkId ∉ postings (remove (run ops) chunkId).1 token.
Proof.
  intros Hd.
  assert (consistent (run ops)) as Hc
    by (apply disciplined_consistent; [apply empty_consistent|done]).
  split; [done|]. intros chunkId token. by apply remove_postings.
Qed.

Lemma index_consistency_witness :
  let ops := [Add (chunk_of "a" "foo bar"); Add (chunk_of "b" "foo");
              Remove "a"; Add (chunk_of "a" "baz"); Add (chunk_of "b" "foo qux")] in
  disciplined empty ops = true
  ∧ consistent (run ops)
  ∧ ∀ chunkId token, chunkId ∉ postings (remove (run ops) chunkId).1 token.
Proof.
  intros ops. split; [vm_compute; reflexivity|].
  apply (index_consistency ops). vm_compute. reflexivity.
Defined.

(** C7: removing a stored id returns [true] and lowers [count] by exactly
    one; removing it again returns [false] and changes nothing. *)
Theorem remove_twice ix chunkId c :
  chunks ix !! chunkId = Some c →
  let r1 := remove ix chunkId in
  let r2 := remove r1.1 chunkId in
  r1.2 = true ∧ (count r1.1 + 1)%nat = count ix
  ∧ r2.2 = false ∧ r2.1 = r1.1 ∧ count r2.1 = count r1.1.
Proof.
  intros Hc r1 r2. subst r2 r1. rewrite (remove_present _ _ c Hc). simpl.
  rewrite remove_absent by (simpl; apply lookup_delete_eq).
  simpl. split_and!; try done.
  unfold count. simpl. rewrite map_size_delete, Hc.
  assert (size (chunks ix) ≠ 0%nat); [|lia].
  apply map_size_non_empty_iff. intros Hempty. by rewrite Hempty, lookup_empty in Hc.
Qed.

Lemma remove_twice_witness :
  let ix := add (add empty (chunk_of "a" "foo")) (chunk_of "b" "bar") in
  let r1 := remove ix "a" in
  let r2 := remove r1.1 "a" in
  r1.2 = true ∧ (count r1.1 + 1)%nat = count ix
  ∧ r2.2 = false ∧ r2.1 = r1.1 ∧ count r2.1 = count r1.1.
Proof.
  intros ix. apply (remove_twice ix "a" (chunk_of "a" "foo")). vm_compute. reflexivity.
Defined.

End IndexProps.

(** ** Facts on [search] *)

Module SearchFacts.
Import ContainerFacts IndexFacts.
Import SearchIndex.

(** *** The score map *)

Lemma value_bump k x (m : Scores.t) :
  Scores.value k (bump m x) = (Scores.value k m + if decide (x = k) then 1 else 0)%nat.
Proof.
  unfold bump, Scores.value. rewrite scores_get_set.
  destruct (decide (x = k)) as [->|]; simpl; lia.
Qed.

Lemma value_bumps k ids (m : Scores.t) :
  Scores.value k (fold_left bump ids m)
  = (Scores.value k m + length (filter (λ x, x = k) ids))%nat.
Proof.
  revert m. induction ids as [|x ids IH]; intros m; simpl; [lia|].
  rewrite IH, value_bump, filter_cons. destruct (decide (x = k)); simpl; lia.
Qed.

Lemma NoDup_count k (ids : list string) :
  NoDup ids → length (filter (λ x, x = k) ids) = if decide (k ∈ ids) then 1%nat else 0%nat.
Proof.
  induction 1 as [|x ids Hx Hnd IH]; [done|].
  rewrite filter_cons. destruct (decide (x = k)) as [->|Hne]; simpl; rewrite IH.
  - rewrite decide_False by done. rewrite decide_True by left. done.
  - destruct (decide (k ∈ ids)) as [Hin|Hin].
    + rewrite decide_True by (by right). done.
    + rewrite decide_False; [done|]. intros [?|?]%elem_of_cons; congruence.
Qed.

Lemma value_score_token ix k token (m : Scores.t) :
  sets ix →
  Scores.value k (score_token ix m token)
  = (Scores.value k m + if decide (k ∈ postings ix token) then 1 else 0)%nat.
Proof.
  intros Hs. unfold score_token, postings.
  destruct (invertedIndex ix !! token) as [ids|] eqn:E.
  - rewrite value_bumps, NoDup_count by (by eapply Hs). done.
  - destruct (decide (k ∈ default [] None)) as [H|_]; [by apply elem_of_nil in H|lia].
Qed.

Lemma value_score_tokens ix k tokens (m : Scores.t) :
  sets ix →
  Scores.value k (fold_left (score_token ix) tokens m)
  = (Scores.value k m + length (filter (λ token, k ∈ postings ix token) tokens))%nat.
Proof.
  intros Hs. revert m. induction tokens as [|token tokens IH]; intros m; simpl; [lia|].
  rewrite IH, value_score_token, filter_cons by done.
  destruct (decide (k ∈ postings ix token)); simpl; lia.
Qed.

Lemma bump_NoDup x (m : Scores.t) : NoDup m.*1 → NoDup (bump m x).*1.
Proof. apply scores_set_NoDup. Qed.

Lemma score_token_NoDup ix token (m : Scores.t) :
  NoDup m.*1 → NoDup (score_token ix m token).*1.
Proof.
  unfold score_token. destruct (invertedIndex ix !! token) as [ids|]; [|done].
  revert m. induction ids as [|x ids IH]; intros m Hm; simpl; [done|].
  by apply IH, bump_NoDup.
Qed.

Lemma raw_scores_NoDup ix tokens : NoDup (raw_scores ix tokens).*1.
Proof.
  unfold raw_scores. generalize (NoDup_nil_2 (A:=string)).
  change (@nil string) with (([] : Scores.t).*1). generalize ([] : Scores.t).
  induction tokens as [|token tokens IH]; intros m Hm; simpl; [done|].
  by apply IH, score_token_NoDup.
Qed.

(** *** Sorting and cutting *)

Lemma insert_result_perm a rs : insert_result a rs ≡ₚ a :: rs.
Proof.
  induction rs as [|b rs IH]; simpl; [done|].
  destruct (Qlt_le_dec (score a) (score b)); [|done].
  rewrite IH. apply Permutation_swap.
Qed.

Lemma sort_results_perm rs : sort_results rs ≡ₚ rs.
Proof.
  induction rs as [|a rs IH]; simpl; [done|].
  by rewrite insert_result_perm, IH.
Qed.

Lemma insert_result_sorted a rs : Sorted desc rs → Sorted desc (insert_result a rs).
Proof.
  induction 1 as [|b rs Hs IH Hb]; simpl.
  - by repeat constructor.
  - destruct (Qlt_le_dec (score a) (score b)) as [Hlt|Hle].
    + constructor; [done|]. destruct Hb as [|c rs Hc]; simpl.
      * constructor. by apply Qlt_le_weak.
      * destruct (Qlt_le_dec (score a) (score c));
          constructor; [done|by apply Qlt_le_weak].
    + constructor; [by constructor|]. by constructor.
Qed.

Lemma sort_results_sorted rs : StronglySorted desc (sort_results rs).
Proof.
  apply Sorted_StronglySorted.
  - intros a b c Hab Hbc. unfold desc in *. by eapply Qle_trans.
  - induction rs as [|a rs IH]; simpl; [constructor|by apply insert_result_sorted].
Qed.

Lemma array_slice0_take {A} (xs : list A) stop :
  ∃ n, Js.array_slice0 xs stop = take n xs ∧ (0 ≤ stop → Z.of_nat n ≤ stop).
Proof.
  eexists. split; [reflexivity|]. intros Hs. unfold Js.rel_index.
  destruct (stop <? 0) eqn:E; lia.
Qed.

Lemma array_slice0_all {A} (xs : list A) stop :
  Z.of_nat (length xs) ≤ stop → Js.array_slice0 xs stop = xs.
Proof.
  intros Hs. unfold Js.array_slice0, Js.rel_index.
  destruct (stop <? 0) eqn:E; [lia|]. apply take_ge. lia.
Qed.

Lemma array_slice0_length {A} (xs : list A) stop :
  0 ≤ stop → Z.of_nat (length (Js.array_slice0 xs stop)) ≤ stop.
Proof.
  intros Hs. destruct (array_slice0_take xs stop) as (n & -> & Hn).
  rewrite length_take. specialize (Hn Hs). lia.
Qed.

Lemma array_slice0_sublist {A} (xs : list A) stop : Js.array_slice0 xs stop `sublist_of` xs.
Proof. apply sublist_take. Qed.

Lemma array_slice0_sorted {A} (R : relation A) (xs : list A) stop :
  StronglySorted R xs → StronglySorted R (Js.array_slice0 xs stop).
Proof.
  intros Hs. unfold Js.array_slice0.
  rewrite <-(take_drop (Z.to_nat (Js.rel_index (Z.of_nat (length xs)) stop)) xs) in Hs.
  by apply StronglySorted_app_1_l in Hs.
Qed.

(** *** The result list *)

Lemma search_matches ix query limit filters :
  search ix query limit filters
  = Js.array_slice0 (sort_results (matches ix query filters)) (default 10 limit).
Proof. reflexivity. Qed.

Lemma search_elem ix query limit filters r :
  r ∈ search ix query limit filters → r ∈ matches ix query filters.
Proof.
  rewrite search_matches. intros Hr.
  pose proof (elem_of_sublist _ _ _ Hr (array_slice0_sublist _ _)) as Hr'.
  by rewrite sort_results_perm in Hr'.
Qed.

Lemma matches_elem ix query filters r :
  r ∈ matches ix query filters →
  ∃ k v, (k, v) ∈ raw_scores ix (tokenize query)
    ∧ chunks ix !! k = Some (chunk r)
    ∧ highlights r = getHighlights (content (chunk r)) (tokenize query) None.
Proof.
  unfold matches. intros ([k v] & Hin & Hr)%list_elem_of_omap.
  exists k, v. split; [done|]. unfold result_of in Hr. simpl in Hr.
  destruct (chunks ix !! k) as [c|]; [|done].
  destruct (skipped filters c); [done|]. by injection Hr as <-.
Qed.

Lemma matches_ids ix query filters :
  keyed ix →
  (id ∘ chunk) <$> matches ix query filters
    `sublist_of` (raw_scores ix (tokenize query)).*1.
Proof.
  intros Hk. unfold matches.
  generalize (max_score (raw_scores ix (tokenize query))). intros mx.
  induction (raw_scores ix (tokenize query)) as [|[k v] m IH]; csimpl; [done|].
  unfold result_of at 1. simpl.
  destruct (chunks ix !! k) as [c|] eqn:E; [|by apply sublist_cons].
  destruct (skipped filters c); [by apply sublist_cons|].
  csimpl. rewrite (Hk _ _ E). by apply sublist_skip.
Qed.

Lemma getHighlights_length content queryTokens windowSize :
  (length (getHighlights content queryTokens windowSize) ≤ 3)%nat.
Proof.
  unfold getHighlights.
  pose proof (array_slice0_length
    (fold_left (λ highlights token,
       highlight_loop (3 - length highlights) content (Js.toLowerCase content) token
         (default 50 windowSize) (Js.indexOf (Js.toLowerCase content) token 0) highlights)
       queryTokens []) 3).
  lia.
Qed.

End SearchFacts.

(** ** The search index: claims C3, C8, C9, C10 *)

Module SearchProps.
Import ContainerFacts IndexFacts SearchFacts.
Import SearchIndex Sample.

(** C3, as stated, fails: with ["a"] holding [foo] and ["b"] holding
    [foo bar], the query [foo foo bar] gives ["a"] the raw score 2 although
    only one distinct query term matches it, and the normalised score of
    ["a"] moves from 1/2 (query [foo bar]) to 2/3. *)
Lemma repeated_token_counts_again :
  let ix := run [Add (chunk_of "a" "foo"); Add (chunk_of "b" "foo bar")] in
  raw_score ix "foo foo bar" "a" ≠ distinct_term_count ix "foo foo bar" "a"
  ∧ (raw_score ix "foo bar" "a" < raw_score ix "foo foo bar" "a")%nat
  ∧ (λ r, (id (chunk r), score r)) <$> search ix "foo bar" None None
    = [("b", 2 # 2); ("a", 1 # 2)]
  ∧ (λ r, (id (chunk r), score r)) <$> search ix "foo foo bar" None None
    = [("b", 3 # 3); ("a", 2 # 3)].
Proof. vm_compute. split_and!; [discriminate|lia|reflexivity|reflexivity]. Qed.

(** C3, amended: on every index built by [add], [remove] and [clear], the
    raw score of a chunk id is the number of tokens of the tokenized query,
    a repeated token counted at each occurrence, whose posting set holds
    the id. *)
Theorem raw_score_counts_occurrences ops query chunkId :
  raw_score (run ops) query chunkId
  = length (filter (λ token, chunkId ∈ postings (run ops) token) (tokenize query)).
Proof.
  unfold raw_score, raw_scores. rewrite value_score_tokens by apply run_sets. done.
Qed.

(** C8: every result of [search] carries at most three highlights. *)
Theorem highlights_at_most_three ix query limit filters :
  Forall (λ r, (length (highlights r) ≤ 3)%nat) (search ix query limit filters).
Proof.
  apply Forall_forall. intros r Hr%search_elem.
  destruct (matches_elem _ _ _ _ Hr) as (k & v & _ & _ & ->).
  apply getHighlights_length.
Qed.

(** C9: for every query and filters and every limit, a result count and so
    not negative (10 when the argument is omitted), [search] returns at
    most [limit] results, and the returned sequence is sorted by score,
    highest first. The order needs no condition on the limit. *)
Theorem search_limit_sorted ix query limit filters :
  (0 ≤ default 10 limit →
   Z.of_nat (length (search ix query limit filters)) ≤ default 10 limit)
  ∧ StronglySorted desc (search ix query limit filters).
Proof.
  rewrite search_matches. split.
  - apply array_slice0_length.
  - apply array_slice0_sorted, sort_results_sorted.
Qed.

Lemma search_limit_sorted_witness :
  let ix := run [Add (chunk_of "a" "foo"); Add (chunk_of "b" "foo bar")] in
  0 ≤ default 10 (Some 1)
  ∧ Z.of_nat (length (search ix "foo bar" (Some 1) None)) ≤ default 10 (Some 1)
  ∧ StronglySorted desc (search ix "foo bar" (Some 1) None).
Proof.
  intros ix. destruct (search_limit_sorted ix "foo bar" (Some 1) None) as [Hlen Hsorted].
  split; [simpl; lia|]. split; [apply Hlen; simpl; lia|exact Hsorted].
Defined.

(** C10: on every index built by [add], [remove] and [clear], no chunk id
    occurs twice among the results of [search]. *)
Theorem search_ids_distinct ops query limit filters :
  NoDup ((λ r, id (chunk r)) <$> search (run ops) query limit filters).
Proof.
  rewrite search_matches.
  eapply sublist_NoDup; [|apply fmap_sublist, array_slice0_sublist].
  rewrite sort_results_perm.
  eapply sublist_NoDup; [apply raw_scores_NoDup|].
  apply (matches_ids _ query filters (run_keyed ops)).
Qed.

End SearchProps.

(** ** Facts on the tokenizer *)

Module TokenFacts.
Import SearchIndex.

Ltac each_char c := destruct c as [[] [] [] [] [] [] [] []]; vm_compute; try reflexivity.

Lemma cleaned_char c : Js.cleaned (Js.blank_nonword (Js.lower_char c)) = true.
Proof. each_char c. Qed.

Lemma cleaned_token_char c :
  Js.cleaned c = true → Js.is_space c = false → Js.token_char c = true.
Proof. each_char c; intros; discriminate. Qed.

Lemma token_char_fixed c :
  Js.token_char c = true →
  Js.lower_char c = c ∧ Js.blank_nonword c = c ∧ Js.is_space c = false.
Proof. each_char c; intros; try discriminate; done. Qed.

Lemma append_cons d s r : String d s +:+ r = String d (s +:+ r).
Proof. reflexivity. Qed.

Lemma append_snoc cur c r : Js.snoc cur c +:+ r = cur +:+ String c r.
Proof.
  unfold Js.snoc. induction cur as [|d cur IH]; [done|].
  by rewrite !append_cons, IH.
Qed.

Lemma append_empty_r s : s +:+ EmptyString = s.
Proof. induction s as [|d s IH]; [done|]. by rewrite append_cons, IH. Qed.

Lemma all_chars_snoc p cur c :
  Js.all_chars p (Js.snoc cur c) = Js.all_chars p cur && p c.
Proof.
  unfold Js.snoc. induction cur as [|d cur IH].
  - simpl. by rewrite andb_true_r.
  - rewrite append_cons. simpl. by rewrite IH, andb_assoc.
Qed.

Lemma normalised_cleaned text :
  Js.all_chars Js.cleaned (Js.replace_nonword (Js.toLowerCase text)) = true.
Proof.
  unfold Js.replace_nonword, Js.toLowerCase.
  induction text as [|c text IH]; simpl; [done|]. by rewrite cleaned_char, IH.
Qed.

(** A piece of a cleaned text is made of token characters. *)
Lemma split_ws_go_pieces cur in_sep s piece :
  Js.all_chars Js.token_char cur = true →
  Js.all_chars Js.cleaned s = true →
  piece ∈ Js.split_ws_go cur in_sep s →
  Js.all_chars Js.token_char piece = true.
Proof.
  revert cur in_sep. induction s as [|c s IH]; intros cur in_sep Hcur Hs; simpl.
  - by intros ->%list_elem_of_singleton.
  - simpl in Hs. apply andb_true_iff in Hs as [Hc Hs].
    destruct (Js.is_space c) eqn:Esp.
    + destruct in_sep.
      * by apply IH.
      * intros [->|Hin]%elem_of_cons; [done|]. by apply IH in Hin.
    + apply IH; [|done]. rewrite all_chars_snoc, Hcur. simpl.
      by apply cleaned_token_char.
Qed.

(** A run of token characters is one piece, and it is left as it is. *)
Lemma split_ws_go_token cur s :
  Js.all_chars Js.token_char s = true →
  Js.split_ws_go cur false s = [cur +:+ s].
Proof.
  revert cur. induction s as [|c s IH]; intros cur Hs; simpl.
  - by rewrite append_empty_r.
  - simpl in Hs. apply andb_true_iff in Hs as [Hc Hs].
    destruct (token_char_fixed c Hc) as (_ & _ & ->).
    by rewrite IH, append_snoc.
Qed.

Lemma map_chars_fixed f s :
  (∀ c, Js.token_char c = true → f c = c) →
  Js.all_chars Js.token_char s = true → Js.map_chars f s = s.
Proof.
  intros Hf. induction s as [|c s IH]; simpl; [done|].
  intros [Hc Hs]%andb_true_iff. by rewrite Hf, IH.
Qed.

Lemma tokenize_elem text token :
  token ∈ tokenize text →
  (2 < String.length token)%nat ∧ Js.all_chars Js.token_char token = true.
Proof.
  unfold tokenize. intros [Hlen Hin]%list_elem_of_filter. split; [done|].
  eapply (split_ws_go_pieces EmptyString false); [done| |exact Hin].
  apply normalised_cleaned.
Qed.

(** Tokenizing a token gives the token back. *)
Lemma tokenize_token text token : token ∈ tokenize text → tokenize token = [token].
Proof.
  intros [Hlen Htok]%tokenize_elem. unfold tokenize, Js.toLowerCase, Js.replace_nonword.
  assert (Js.map_chars Js.lower_char token = token) as ->
    by (apply map_chars_fixed; [intros c Hc; by apply token_char_fixed|done]).
  assert (Js.map_chars Js.blank_nonword token = token) as ->
    by (apply map_chars_fixed; [intros c Hc; by apply token_char_fixed|done]).
  unfold Js.split_ws. rewrite split_ws_go_token by done.
  change (EmptyString +:+ token) with token.
  rewrite filter_cons, decide_True by done. done.
Qed.

End TokenFacts.

(** ** The search index: claim C6 *)

Module RoundTrip.
Import ContainerFacts IndexFacts SearchFacts TokenFacts.
Import SearchIndex Sample.

(** An entry of the score map yields at most one result, and only for a
    stored key; so there are no more results than stored chunks. *)
Lemma matches_length ix query filters :
  (length (matches ix query filters) ≤ count ix)%nat.
Proof.
  unfold matches, count.
  generalize (max_score (raw_scores ix (tokenize query))). intros mx.
  pose proof (raw_scores_NoDup ix (tokenize query)) as Hnd.
  transitivity (length (filter (λ k, is_Some (chunks ix !! k))
                               (raw_scores ix (tokenize query)).*1)).
  - clear Hnd. induction (raw_scores ix (tokenize query)) as [|[k v] m IH]; csimpl; [done|].
    unfold result_of at 1. rewrite filter_cons. simpl.
    destruct (chunks ix !! k) as [c|] eqn:E.
    + rewrite decide_True by (by eexists).
      destruct (skipped filters c); simpl; lia.
    + rewrite decide_False by (by intros [? ?]). done.
  - rewrite <-size_dom. apply submseteq_length, NoDup_submseteq.
    + by apply NoDup_filter.
    + intros k [Hk _]%list_elem_of_filter. by apply elem_of_elements, elem_of_dom.
Qed.

Lemma add_lookup_token ix c token :
  token ∈ tokenize (content c) →
  ∃ ids, invertedIndex (add ix c) !! token = Some ids ∧ id c ∈ ids.
Proof.
  intros Htok.
  assert (id c ∈ postings (add ix c) token) as Hin by (apply postings_add; auto).
  unfold postings in Hin. destruct (invertedIndex (add ix c) !! token) as [ids|].
  - by exists ids.
  - by apply elem_of_nil in Hin.
Qed.

(** C6: after [add ix c], searching for a token [T] of the content of [c],
    without filters and with a limit that is at least the number of indexed
    chunks, returns a result for [c] with a positive score. *)
Theorem tokenize_then_search ix c T limit :
  T ∈ tokenize (content c) →
  Z.of_nat (count (add ix c)) ≤ limit →
  ∃ r, r ∈ search (add ix c) T (Some limit) None ∧ chunk r = c ∧ (0 < score r)%Q.
Proof.
  intros Htok Hlimit.
  destruct (add_lookup_token ix c T Htok) as (ids & Hids & Hin).
  set (ix' := add ix c) in *.
  assert (raw_scores ix' (tokenize T) = fold_left bump ids []) as Hscores.
  { rewrite (tokenize_token _ _ Htok). unfold raw_scores. cbn [fold_left].
    unfold score_token. by rewrite Hids. }
  assert (1 ≤ Scores.value (id c) (raw_scores ix' (tokenize T)))%nat as Hv.
  { rewrite Hscores, value_bumps.
    assert (id c ∈ filter (λ x, x = id c) ids) as Hf by (by apply list_elem_of_filter).
    destruct (filter (λ x, x = id c) ids); [by apply elem_of_nil in Hf|simpl; lia]. }
  unfold Scores.value in Hv.
  destruct (Scores.get (id c) (raw_scores ix' (tokenize T))) as [v|] eqn:Hget;
    [|simpl in Hv; lia].
  simpl in Hv. apply scores_get_Some in Hget.
  set (mx := max_score (raw_scores ix' (tokenize T))).
  exists {| chunk := c; score := Z.of_nat v # Pos.of_nat mx;
            highlights := getHighlights (content c) (tokenize T) None |}.
  split_and!; [|done|unfold Qlt; simpl; lia].
  rewrite search_matches. simpl.
  rewrite array_slice0_all.
  - rewrite sort_results_perm. unfold matches. apply list_elem_of_omap.
    exists (id c, v). split; [done|]. unfold result_of. simpl.
    by rewrite lookup_insert_eq.
  - rewrite sort_results_perm. pose proof (matches_length ix' T None). lia.
Qed.

Lemma tokenize_then_search_witness :
  let ix := add empty (chunk_of "a" "alpha beta") in
  let c := chunk_of "b" "Beta, gamma!" in
  "beta" ∈ tokenize (content c)
  ∧ Z.of_nat (count (add ix c)) ≤ 2
  ∧ ∃ r, r ∈ search (add ix c) "beta" (Some 2) None ∧ chunk r = c ∧ (0 < score r)%Q.
Proof.
  intros ix c.
  assert ("beta" ∈ tokenize (content c)) as Htok by (vm_compute; left).
  assert (Z.of_nat (count (add ix c)) ≤ 2) as Hlimit by (vm_compute; discriminate).
  split; [exact Htok|]. split; [exact Hlimit|].
  exact (tokenize_then_search ix c "beta" 2 Htok Hlimit).
Defined.

End RoundTrip.

(** ** Facts on string lengths *)

Module LengthFacts.

Lemma length_append a b : String.length (a +:+ b) = (String.length a + String.length b)%nat.
Proof.
  induction a as [|c a IH]; [done|].
  change (S (String.length (a +:+ b)) = S (String.length a + String.length b)).
  by rewrite IH.
Qed.

Lemma len_append a b : Js.len (a +:+ b) = Js.len a + Js.len b.
Proof. unfold Js.len. rewrite length_append. lia. Qed.

Lemma len_nonneg s : 0 ≤ Js.len s.
Proof. unfold Js.len. lia. Qed.

Lemma length_trimStart s : (String.length (Js.trimStart s) ≤ String.length s)%nat.
Proof.
  induction s as [|c s IH]; simpl; [done|]. destruct (Js.is_space c); simpl; lia.
Qed.

Lemma length_trimEnd s : (String.length (Js.trimEnd s) ≤ String.length s)%nat.
Proof.
  induction s as [|c s IH]; simpl; [done|].
  destruct (Js.trimEnd s); [destruct (Js.is_space c)|]; simpl in *; lia.
Qed.

Lemma len_trim s : Js.len (Js.trim s) ≤ Js.len s.
Proof.
  unfold Js.len, Js.trim.
  pose proof (length_trimEnd (Js.trimStart s)). pose proof (length_trimStart s). lia.
Qed.

Lemma length_substring n m s : (String.length (substring n m s) ≤ m)%nat.
Proof.
  revert n m. induction s as [|c s IH]; intros [|n] [|m]; simpl; try lia.
  - specialize (IH 0%nat m). lia.
  - apply IH.
  - apply IH.
Qed.

(** [s.slice(-k)] has at most [k] characters when [k] is positive. *)
Lemma len_slice_tail s k : 1 ≤ k → Js.len (Js.slice s (- k) None) ≤ k.
Proof.
  intros Hk. unfold Js.slice, Js.rel_index.
  destruct (- k <? 0) eqn:E; [|lia].
  pose proof (length_substring (Z.to_nat (Z.max (Js.len s + - k) 0))
                (Z.to_nat (Js.len s - Z.max (Js.len s + - k) 0)) s) as Hle.
  pose proof (len_nonneg s). unfold Js.len in *. lia.
Qed.

Lemma length_repeat_char c n : String.length (Js.repeat_char c n) = n.
Proof. induction n as [|n IH]; simpl; [done|by rewrite IH]. Qed.

End LengthFacts.

(** ** The chunker: claims C2, C4, C5 *)

Module ChunkingProps.
Import LengthFacts Sample.
Import ChunkingUtils.

(** C5: a document whose content is not longer than [chunkSize] gives
    exactly one chunk, from offset 0 to the length of the content, with the
    whole content. *)
Theorem small_document_one_chunk cfg document :
  Js.len (Document.content document) ≤ chunkSize cfg →
  ∃ c, ChunkingUtils.chunk cfg document = [c]
    ∧ startOffset c = 0
    ∧ endOffset c = Js.len (Document.content document)
    ∧ content c = Document.content document.
Proof.
  intros Hlen. unfold ChunkingUtils.chunk. rewrite decide_True by done.
  eexists. split; [reflexivity|]. done.
Qed.

Lemma small_document_one_chunk_witness :
  Js.len (Document.content (text_doc "d0" "short text")) ≤ chunkSize (new None None)
  ∧ ∃ c, ChunkingUtils.chunk (new None None) (text_doc "d0" "short text") = [c]
    ∧ startOffset c = 0
    ∧ endOffset c = Js.len (Document.content (text_doc "d0" "short text"))
    ∧ content c = Document.content (text_doc "d0" "short text").
Proof.
  assert (Js.len (Document.content (text_doc "d0" "short text")) ≤ chunkSize (new None None))
    as Hlen by (vm_compute; discriminate).
  split; [exact Hlen|].
  exact (small_document_one_chunk (new None None) (text_doc "d0" "short text") Hlen).
Defined.

(** C2, as stated, fails: the 1500 letters have no paragraph break, so
    they are one section, and [chunk] does not return two chunks. *)
Lemma unbroken_text_not_two_chunks :
  ¬ ∃ c0 c1,
      ChunkingUtils.chunk (new (Some 1000) (Some 200)) d1 = [c0; c1]
      ∧ startOffset c0 = 0 ∧ endOffset c0 = 1000
      ∧ String.prefix (Js.slice (content c0) (-200) None) (content c1) = true.
Proof.
  intros (c0 & c1 & Heq & _). vm_compute in Heq. discriminate.
Qed.

(** C2, amended: for that document and configuration [chunk] returns
    exactly one chunk, [d1-chunk-0], which starts at offset 0 and holds the
    whole content. *)
Theorem unbroken_text_one_chunk :
  ∃ c0, ChunkingUtils.chunk (new (Some 1000) (Some 200)) d1 = [c0]
    ∧ id c0 = "d1-chunk-0"
    ∧ startOffset c0 = 0
    ∧ content c0 = Document.content d1.
Proof. eexists. split; [vm_compute; reflexivity|]. by vm_compute. Qed.

Lemma emit_short cfg document i buffer off :
  Js.len buffer ≤ chunkSize cfg + overlap cfg →
  Js.len (content (emit document i buffer off)) ≤ chunkSize cfg + overlap cfg.
Proof. intros Hb. simpl. pose proof (len_trim buffer). lia. Qed.

Lemma chunk_step_short cfg document a section :
  1 ≤ overlap cfg → Js.len section ≤ chunkSize cfg →
  short cfg a → short cfg (chunk_step cfg document a section).
Proof.
  intros Hov Hsec [Hchunks Hbuf]. unfold chunk_step.
  destruct (decide _) as [[Hbig Hpos]|Hsmall]; split; simpl.
  - apply Forall_app. split; [done|]. apply Forall_singleton. by apply emit_short.
  - rewrite len_append. pose proof (len_slice_tail (currentChunk a) _ Hov). lia.
  - done.
  - rewrite len_append. pose proof (len_nonneg (currentChunk a)).
    pose proof (len_nonneg section). lia.
Qed.

Lemma chunk_loop_short cfg document sections a :
  1 ≤ overlap cfg → Forall (λ s, Js.len s ≤ chunkSize cfg) sections →
  short cfg a → short cfg (fold_left (chunk_step cfg document) sections a).
Proof.
  intros Hov Hsecs. revert a.
  induction Hsecs as [|section sections Hsec _ IH]; intros a Ha; simpl; [done|].
  by apply IH, chunk_step_short.
Qed.

(** C4, amended: when [overlap] is at least 1 and no section of the
    type-specific split is longer than [chunkSize], every chunk's content
    has at most [chunkSize + overlap] characters. *)
Theorem chunk_length_bound cfg document :
  1 ≤ overlap cfg →
  Forall (λ s, Js.len s ≤ chunkSize cfg)
         (splitSemantically (Document.content document) (Document.type document)) →
  Forall (λ c, Js.len (content c) ≤ chunkSize cfg + overlap cfg)
         (ChunkingUtils.chunk cfg document).
Proof.
  intros Hov Hsecs. unfold ChunkingUtils.chunk.
  destruct (decide (Js.len (Document.content document) ≤ chunkSize cfg)) as [Hsmall|Hbig].
  - apply Forall_singleton. cbn [content]. lia.
  - assert (0 ≤ chunkSize cfg ∨
            splitSemantically (Document.content document) (Document.type document) = []) as [Hcs|Hnil].
    { destruct Hsecs as [|section sections Hsec _]; [by right|left].
      pose proof (len_nonneg section). lia. }
    + destruct (chunk_loop_short cfg document _
                  {| chunks := []; currentChunk := EmptyString; offset := 0; chunkIndex := O |}
                  Hov Hsecs) as [Hchunks Hbuf].
      { split; [constructor|]. cbn [currentChunk]. change (Js.len EmptyString) with 0. lia. }
      destruct (decide _); [|done].
      apply Forall_app. split; [done|]. apply Forall_singleton. by apply emit_short.
    + rewrite Hnil. simpl. constructor.
Qed.

Lemma chunk_length_bound_witness :
  let cfg := new (Some 8) (Some 2) in
  1 ≤ overlap cfg
  ∧ Forall (λ s, Js.len s ≤ chunkSize cfg)
           (splitSemantically (Document.content three_paragraphs) (Document.type three_paragraphs))
  ∧ Forall (λ c, Js.len (content c) ≤ chunkSize cfg + overlap cfg)
           (ChunkingUtils.chunk cfg three_paragraphs).
Proof.
  intros cfg.
  assert (1 ≤ overlap cfg) as Hov by (vm_compute; discriminate).
  assert (Forall (λ s, Js.len s ≤ chunkSize cfg)
            (splitSemantically (Document.content three_paragraphs) (Document.type three_paragraphs)))
    as Hsecs by (vm_compute; repeat constructor; discriminate).
  split; [exact Hov|]. split; [exact Hsecs|].
  exact (chunk_length_bound cfg three_paragraphs Hov Hsecs).
Defined.

End ChunkingProps.

(** ** The chunker: a section longer than any bound *)

Module LongSection.
Import LengthFacts TokenFacts Sample.
Import ChunkingUtils.

Lemma split_blank_go_letters cur in_sep n :
  Js.split_blank_go cur in_sep (Bs n) = [cur +:+ Bs n].
Proof.
  revert cur in_sep. induction n as [|n IH]; intros cur in_sep; simpl.
  - by rewrite append_empty_r.
  - by rewrite IH, append_snoc.
Qed.

Lemma trimEnd_cons c s :
  Js.trimEnd s ≠ EmptyString → Js.trimEnd (String c s) = String c (Js.trimEnd s).
Proof. intros Hs. simpl. by destruct (Js.trimEnd s). Qed.

Lemma trimEnd_letters n tail :
  Js.trimEnd tail = EmptyString → Js.trimEnd (Bs (S n) +:+ tail) = Bs (S n).
Proof.
  intros Htail. induction n as [|n IH].
  - change (Bs 1 +:+ tail) with (String "B" tail). simpl. by rewrite Htail.
  - change (Bs (S (S n)) +:+ tail) with (String "B" (Bs (S n) +:+ tail)).
    rewrite trimEnd_cons; rewrite IH; done.
Qed.

Lemma splitParagraphs_long n :
  splitParagraphs (Document.content (long_paragraph (S n)))
  = ["aa" +:+ blank_line; Bs (S n) +:+ blank_line].
Proof.
  unfold splitParagraphs, Js.split_blank. cbn [long_paragraph text_doc Document.content].
  cbn [Js.split_blank_go]. change (Js.is_nl "a") with false.
  change (Js.is_nl "010") with true. cbn iota.
  rewrite split_blank_go_letters. change (EmptyString +:+ Bs (S n)) with (Bs (S n)).
  rewrite !fmap_cons, fmap_nil.
  assert (Js.trim (Bs (S n)) = Bs (S n)) as ->.
  { unfold Js.trim. change (Js.trimStart (Bs (S n))) with (Bs (S n)).
    rewrite <-(append_empty_r (Bs (S n))) at 1. by apply trimEnd_letters. }
  change (Js.trim (Js.snoc (Js.snoc EmptyString "a") "a")) with "aa".
  rewrite !filter_cons, filter_nil.
  assert (Js.trim (Bs (S n) +:+ nl +:+ nl) = Bs (S n)) as ->.
  { unfold Js.trim. change (Js.trimStart (Bs (S n) +:+ nl +:+ nl)) with (Bs (S n) +:+ nl +:+ nl).
    by apply trimEnd_letters. }
  change (Js.trim ("aa" +:+ nl +:+ nl)) with "aa".
  rewrite !decide_True; [done| |done].
  unfold Js.len. simpl. lia.
Qed.

Lemma len_letters n : Js.len (Bs n) = Z.of_nat n.
Proof. unfold Js.len. by rewrite length_repeat_char. Qed.

Lemma len_long n : Js.len (Document.content (long_paragraph n)) = 4 + Z.of_nat n.
Proof.
  change (Document.content (long_paragraph n)) with ("aa" +:+ blank_line +:+ Bs n).
  rewrite !len_append, len_letters. change (Js.len "aa") with 2.
  change (Js.len blank_line) with 2. lia.
Qed.

Lemma trimEnd_prefix p s :
  Js.trimEnd s ≠ EmptyString → Js.trimEnd (p +:+ s) = p +:+ Js.trimEnd s.
Proof.
  intros Hs. induction p as [|c p IH]; [done|].
  change (String c p +:+ s) with (String c (p +:+ s)).
  rewrite trimEnd_cons; rewrite IH; [done|].
  destruct p; [exact Hs|discriminate].
Qed.

Lemma trim_long n :
  Js.trim (("aa" +:+ blank_line) +:+ Bs (S n) +:+ blank_line)
  = ("aa" +:+ blank_line) +:+ Bs (S n).
Proof.
  unfold Js.trim.
  change (Js.trimStart (("aa" +:+ blank_line) +:+ Bs (S n) +:+ blank_line))
    with (("aa" +:+ blank_line) +:+ Bs (S n) +:+ blank_line).
  rewrite trimEnd_prefix; rewrite trimEnd_letters; done.
Qed.

(** The two chunks of a long paragraph: the second one holds the whole
    first buffer again, then the long section. *)
Lemma chunk_long n :
  (1000 ≤ n)%nat →
  ChunkingUtils.chunk (new None None) (long_paragraph (S n))
  = [emit (long_paragraph (S n)) 0 ("aa" +:+ blank_line) 0;
     emit (long_paragraph (S n)) 1
          (("aa" +:+ blank_line) +:+ Bs (S n) +:+ blank_line) (0 + 4 - 200)].
Proof.
  intros Hn. unfold ChunkingUtils.chunk.
  rewrite decide_False by (rewrite len_long; cbn [chunkSize new default]; lia).
  change (Document.type (long_paragraph (S n))) with TText.
  cbn [splitSemantically]. rewrite splitParagraphs_long. cbn [fold_left].
  set (doc := long_paragraph (S n)).
  assert (chunk_step (new None None) doc
            {| chunks := []; currentChunk := EmptyString; offset := 0; chunkIndex := O |}
            ("aa" +:+ blank_line)
          = {| chunks := []; currentChunk := "aa" +:+ blank_line; offset := 0;
               chunkIndex := O |}) as ->.
  { unfold chunk_step. cbn [currentChunk]. change (Js.len EmptyString) with 0.
    rewrite decide_False; [done|]. lia. }
  assert (chunk_step (new None None) doc
            {| chunks := []; currentChunk := "aa" +:+ blank_line; offset := 0;
               chunkIndex := O |}
            (Bs (S n) +:+ blank_line)
          = {| chunks := [emit doc 0 ("aa" +:+ blank_line) 0];
               currentChunk := ("aa" +:+ blank_line) +:+ Bs (S n) +:+ blank_line;
               offset := 0 + 4 - 200; chunkIndex := 1 |}) as ->.
  { unfold chunk_step. cbn [currentChunk chunks offset chunkIndex chunkSize overlap new default].
    rewrite decide_True; [done|].
    rewrite !len_append, len_letters. change (Js.len "aa") with 2.
    change (Js.len blank_line) with 2. lia. }
  cbn [currentChunk chunks offset chunkIndex].
  rewrite decide_True; [done|].
  assert (Js.trim (("aa" +:+ blank_line) +:+ Bs (S n) +:+ blank_line)
          = ("aa" +:+ blank_line) +:+ Bs (S n)) as ->.
  { apply trim_long. }
  rewrite !len_append, len_letters. change (Js.len "aa") with 2.
  change (Js.len blank_line) with 2. lia.
Qed.

(** C4, as stated, fails whatever the slack: a paragraph is never split,
    so a document of two paragraphs, the second of which has more than
    [chunkSize + overlap + slack] letters, gives two chunks, and the
    second is longer than the bound. *)
Lemma long_section_exceeds_any_slack :
  ¬ ∃ slack, ∀ document,
      (1 < length (ChunkingUtils.chunk (new None None) document))%nat →
      within_slack slack (new None None) document.
Proof.
  intros [slack Hclaim].
  set (n := (Z.to_nat (Z.max slack 0) + 1200)%nat).
  specialize (Hclaim (long_paragraph (S n))). unfold within_slack in Hclaim.
  rewrite chunk_long in Hclaim by (unfold n; lia).
  specialize (Hclaim ltac:(simpl; lia)).
  apply Forall_cons in Hclaim as [_ [Hsecond _]%Forall_cons].
  cbn [emit content] in Hsecond.
  assert (Js.trim (("aa" +:+ blank_line) +:+ Bs (S n) +:+ blank_line)
          = ("aa" +:+ blank_line) +:+ Bs (S n)) as Htrim.
  { apply trim_long. }
  rewrite Htrim, !len_append, len_letters in Hsecond.
  change (Js.len "aa") with 2 in Hsecond. change (Js.len blank_line) with 2 in Hsecond.
  cbn [chunkSize overlap new default] in Hsecond. unfold n in Hsecond. lia.
Qed.

End LongSection.

(** ** More on [search] *)

Module SearchExtra.
Import ContainerFacts IndexFacts SearchFacts TokenFacts RoundTrip.
Import SearchIndex.

(** *** Scores *)

Lemma scores_set_elem k v k' v' (m : Scores.t) :
  (k', v') ∈ Scores.set k v m → (k', v') = (k, v) ∨ (k', v') ∈ m.
Proof.
  induction m as [|[k0 v0] m IH]; simpl.
  - intros ->%list_elem_of_singleton. by left.
  - destruct (decide (k0 = k)) as [->|Hne].
    + intros [->|Hin]%elem_of_cons; [by left|right; by right].
    + intros [->|Hin]%elem_of_cons; [right; left|].
      destruct (IH Hin) as [?|?]; [by left|right; by right].
Qed.

Lemma bump_positive x (m : Scores.t) : positive_values m → positive_values (bump m x).
Proof.
  intros Hm. apply Forall_forall. intros [k v] Hin.
  apply scores_set_elem in Hin as [[= -> ->]|Hin]; simpl; [lia|].
  by apply (proj1 (Forall_forall _ _) Hm (k, v)).
Qed.

Lemma score_token_positive ix token (m : Scores.t) :
  positive_values m → positive_values (score_token ix m token).
Proof.
  unfold score_token. destruct (invertedIndex ix !! token) as [ids|]; [|done].
  revert m. induction ids as [|x ids IH]; intros m Hm; simpl; [done|].
  by apply IH, bump_positive.
Qed.

Lemma raw_scores_positive ix tokens : positive_values (raw_scores ix tokens).
Proof.
  unfold raw_scores. assert (positive_values []) as Hnil by constructor.
  revert Hnil. generalize ([] : Scores.t).
  induction tokens as [|token tokens IH]; intros m Hm; simpl; [done|].
  by apply IH, score_token_positive.
Qed.

Lemma max_score_bounds (m : Scores.t) :
  (1 ≤ max_score m)%nat ∧ Forall (λ e, (e.2 ≤ max_score m)%nat) m.
Proof.
  unfold max_score. induction m as [|[k v] m [IH1 IH2]]; csimpl.
  - split; [lia|constructor].
  - split; [lia|]. constructor; [simpl; lia|].
    eapply Forall_impl; [exact IH2|]. intros e He. simpl in *. lia.
Qed.

Lemma pos_of_nat_Z n : (1 ≤ n)%nat → Z.pos (Pos.of_nat n) = Z.of_nat n.
Proof. intros Hn. rewrite <-positive_nat_Z, Nat2Pos.id by lia. done. Qed.

(** What a result says of the entry it comes from. *)
Lemma matches_entry ix query filters r :
  r ∈ matches ix query filters →
  ∃ k v, (k, v) ∈ raw_scores ix (tokenize query)
    ∧ chunks ix !! k = Some (chunk r)
    ∧ skipped filters (chunk r) = false
    ∧ score r = Z.of_nat v # Pos.of_nat (max_score (raw_scores ix (tokenize query))).
Proof.
  unfold matches. intros ([k v] & Hin & Hr)%list_elem_of_omap.
  exists k, v. split; [done|]. unfold result_of in Hr. simpl in Hr.
  destruct (chunks ix !! k) as [c|]; [|done].
  destruct (skipped filters c) eqn:Hskip; [done|]. by injection Hr as <-.
Qed.

(** X1: every score returned by [search] is above 0 and at most 1. *)
Theorem search_scores_normalised ix query limit filters :
  Forall (λ r, (0 < score r)%Q ∧ (score r <= 1)%Q) (search ix query limit filters).
Proof.
  apply Forall_forall. intros r Hr%search_elem.
  destruct (matches_entry _ _ _ _ Hr) as (k & v & Hin & _ & _ & ->).
  pose proof (raw_scores_positive ix (tokenize query)) as Hpos.
  apply (proj1 (Forall_forall _ _) Hpos) in Hin as Hv. simpl in Hv.
  destruct (max_score_bounds (raw_scores ix (tokenize query))) as [Hmx Hle].
  apply (proj1 (Forall_forall _ _) Hle) in Hin as Hvm. simpl in Hvm.
  unfold Qlt, Qle. simpl. rewrite pos_of_nat_Z by lia. lia.
Qed.


(** *** Filters *)

(** X2: with filters, every result passes the [source] filter, the
    [language] filter and the [tags] filter that are set (a set string filter
    is a non-empty one; a tags filter asks for one common tag). *)
Theorem search_filters_hold ix query limit f :
  Forall (λ r,
      (∀ s, SearchFilters.source f = Some s → s ≠ EmptyString →
            source (metadata (chunk r)) = s)
    ∧ (∀ l, SearchFilters.language f = Some l → l ≠ EmptyString →
            language (metadata (chunk r)) = Some l)
    ∧ (∀ ts, SearchFilters.tags f = Some ts →
            ∃ tg cts, tg ∈ ts ∧ tags (metadata (chunk r)) = Some cts ∧ tg ∈ cts))
    (search ix query limit (Some f)).
Proof.
  apply Forall_forall. intros r Hr%search_elem.
  destruct (matches_entry _ _ _ _ Hr) as (k & v & _ & _ & Hskip & _).
  unfold skipped in Hskip.
  apply orb_false_iff in Hskip as [[Hs Hl]%orb_false_iff Ht]. split_and!.
  - intros s Hsrc Hne. rewrite Hsrc in Hs. destruct s; [done|]. simpl in Hs.
    apply negb_false_iff, String.eqb_eq in Hs. done.
  - intros l Hlang Hne. rewrite Hlang in Hl. destruct l; [done|]. simpl in Hl.
    apply negb_false_iff, bool_decide_eq_true in Hl. done.
  - intros ts Htags. rewrite Htags in Ht.
    apply negb_false_iff, existsb_exists in Ht as (tg & Hin & Htg).
    destruct (tags (metadata (chunk r))) as [cts|]; [|done].
    exists tg, cts. split_and!; [by apply list_elem_of_In|done|].
    by apply bool_decide_eq_true in Htg.
Qed.

Lemma search_ext ix query limit f g :
  (∀ c, skipped f c = skipped g c) →
  search ix query limit f = search ix query limit g.
Proof.
  intros Hfg. rewrite !search_matches. do 2 f_equal. unfold matches.
  apply list_omap_ext, Forall2_same_length_lookup. split; [done|].
  intros i e e' He He'. assert (e = e') as <- by congruence.
  unfold result_of. destruct (chunks ix !! e.1); [|done]. by rewrite Hfg.
Qed.

(** X3: a filters object without tags whose [source] and [language] are
    missing or empty changes nothing, whatever its [type]: [search] never
    reads [filters.type], and an empty string is no filter. *)
Theorem search_inert_filters ix query limit f :
  truthy (SearchFilters.source f) = None →
  truthy (SearchFilters.language f) = None →
  SearchFilters.tags f = None →
  search ix query limit (Some f) = search ix query limit None.
Proof.
  intros Hs Hl Ht. apply search_ext. intros c. unfold skipped.
  by rewrite Hs, Hl, Ht.
Qed.

Lemma search_inert_filters_witness :
  let f := {| SearchFilters.source := Some EmptyString;
              SearchFilters.type := Some TCode;
              SearchFilters.tags := None;
              SearchFilters.language := None |} in
  let ix := add empty (Sample.chunk_of "a" "foo") in
  search ix "foo" None (Some f) = search ix "foo" None None.
Proof.
  intros f ix. apply (search_inert_filters ix "foo" None f); reflexivity.
Defined.

Lemma omap_none {A B} (g : A → option B) (l : list A) :
  (∀ x, g x = None) → omap g l = [].
Proof. intros Hg. induction l as [|x l IH]; csimpl; [done|]. by rewrite Hg. Qed.

(** X4: an empty [tags] array is a filter that nothing passes. *)
Theorem search_empty_tags ix query limit f :
  SearchFilters.tags f = Some [] → search ix query limit (Some f) = [].
Proof.
  intros Ht. rewrite search_matches. unfold matches.
  rewrite omap_none; [apply take_nil|].
  intros e. unfold result_of. destruct (chunks ix !! e.1) as [c|]; [|done].
  unfold skipped. rewrite Ht. simpl. by rewrite orb_true_r.
Qed.

Lemma search_empty_tags_witness :
  let f := {| SearchFilters.source := None; SearchFilters.type := None;
              SearchFilters.tags := Some []; SearchFilters.language := None |} in
  search (add empty (Sample.chunk_of "a" "foo")) "foo" None (Some f) = [].
Proof. intros f. apply (search_empty_tags _ "foo" None f). reflexivity. Defined.

(** *** The query *)

Lemma lower_char_idem c : Js.lower_char (Js.lower_char c) = Js.lower_char c.
Proof. each_char c. Qed.

Lemma tokenize_lower text : tokenize (Js.toLowerCase text) = tokenize text.
Proof.
  unfold tokenize. do 3 f_equal. unfold Js.toLowerCase.
  induction text as [|c text IH]; simpl; [done|]. by rewrite lower_char_idem, IH.
Qed.

Lemma search_tokens ix q q' limit filters :
  tokenize q = tokenize q' → search ix q limit filters = search ix q' limit filters.
Proof. intros Hq. unfold search. by rewrite Hq. Qed.

(** X5: [search] does not see the case of the query. *)
Theorem search_query_case ix query limit filters :
  search ix (Js.toLowerCase query) limit filters = search ix query limit filters.
Proof. apply search_tokens, tokenize_lower. Qed.

Lemma length_map_chars g s : String.length (Js.map_chars g s) = String.length s.
Proof. induction s as [|c s IH]; simpl; [done|by rewrite IH]. Qed.

Lemma length_snoc cur c : String.length (Js.snoc cur c) = S (String.length cur).
Proof.
  unfold Js.snoc. induction cur as [|d cur IH]; [done|].
  rewrite append_cons. simpl. by rewrite IH.
Qed.

Lemma split_ws_go_length cur in_sep s piece :
  piece ∈ Js.split_ws_go cur in_sep s →
  (String.length piece ≤ String.length cur + String.length s)%nat.
Proof.
  revert cur in_sep. induction s as [|c s IH]; intros cur in_sep; simpl.
  - intros ->%list_elem_of_singleton. lia.
  - destruct (Js.is_space c).
    + destruct in_sep.
      * intros Hin%IH. simpl in Hin. lia.
      * intros [->|Hin%IH]%elem_of_cons; [lia|]. simpl in Hin. lia.
    + intros Hin%IH. rewrite length_snoc in Hin. lia.
Qed.

Lemma tokenize_short text : (String.length text ≤ 2)%nat → tokenize text = [].
Proof.
  intros Hlen. unfold tokenize, Js.split_ws.
  destruct (filter _ _) as [|token rest] eqn:E; [done|]. exfalso.
  assert (token ∈ token :: rest) as Hin by left. rewrite <-E in Hin.
  apply list_elem_of_filter in Hin as [Hlong Hin].
  apply split_ws_go_length in Hin. unfold Js.replace_nonword, Js.toLowerCase in Hin.
  rewrite !length_map_chars in Hin. simpl in Hin. lia.
Qed.

(** X6: a query of fewer than three characters has no token, and finds
    nothing. *)
Theorem search_short_query ix query limit filters :
  (String.length query ≤ 2)%nat → search ix query limit filters = [].
Proof. intros Hlen. unfold search. rewrite tokenize_short by done. apply take_nil. Qed.

Lemma search_short_query_witness :
  (String.length "ab" ≤ 2)%nat
  ∧ search (add empty (Sample.chunk_of "a" "ab abc")) "ab" None None = [].
Proof.
  assert (String.length "ab" ≤ 2)%nat as Hlen by (simpl; lia).
  split; [exact Hlen|]. exact (search_short_query _ "ab" None None Hlen).
Defined.

End SearchExtra.

(** ** More on [add], [remove] and [clear] *)

Module IndexExtra.
Import ContainerFacts IndexFacts IndexProps SearchFacts TokenFacts RoundTrip SearchExtra.
Import SearchIndex.

Lemma set_add_idem x (s : JsSet.t) : JsSet.add x (JsSet.add x s) = JsSet.add x s.
Proof.
  unfold JsSet.add at 1. rewrite decide_True; [done|]. apply set_add_elem. by left.
Qed.

Lemma set_delete_add x (s : JsSet.t) : x ∉ s → JsSet.delete x (JsSet.add x s) = s.
Proof.
  intros Hx. unfold JsSet.add, JsSet.delete. rewrite decide_False by done.
  rewrite filter_app, filter_cons, decide_False, filter_nil, app_nil_r by (by intros []).
  induction s as [|y s IH]; [done|]. apply not_elem_of_cons in Hx as [Hne Hx].
  rewrite filter_cons, decide_True by done. by rewrite IH.
Qed.

Lemma set_delete_fresh x (s : JsSet.t) : x ∉ s → JsSet.delete x s = s.
Proof.
  intros Hx. unfold JsSet.delete. induction s as [|y s IH]; [done|].
  apply not_elem_of_cons in Hx as [Hne Hx].
  rewrite filter_cons, decide_True by done. by rewrite IH.
Qed.

(** The posting set of a token after the loop of [add]. *)
Lemma index_tokens_lookup cid toks (inv : gmap string JsSet.t) t :
  fold_left (index_token cid) toks inv !! t
  = if decide (t ∈ toks) then Some (JsSet.add cid (default [] (inv !! t))) else inv !! t.
Proof.
  revert inv. induction toks as [|tok toks IH]; intros inv; cbn [fold_left].
  - rewrite decide_False; [done|]. apply not_elem_of_nil.
  - rewrite IH, index_token_lookup.
    destruct (decide (t ∈ tok :: toks)) as [Hin'|Hin'], (decide (t ∈ toks)) as [Hin|Hin],
      (decide (tok = t)) as [->|Hne]; simpl; try done.
    + by rewrite set_add_idem.
    + apply elem_of_cons in Hin' as [?|?]; congruence.
    + exfalso. apply Hin'. by right.
    + exfalso. apply Hin'. by right.
    + exfalso. apply Hin'. left.
Qed.

Lemma postings_add_list ix c t :
  postings (add ix c) t
  = if decide (t ∈ tokenize (content c)) then JsSet.add (id c) (postings ix t)
    else postings ix t.
Proof.
  unfold postings, add. simpl. rewrite index_tokens_lookup. by case_decide.
Qed.

Lemma unindex_tokens_postings cid toks (inv : gmap string JsSet.t) t :
  default [] (fold_left (unindex_token cid) toks inv !! t)
  = if decide (t ∈ toks) then JsSet.delete cid (default [] (inv !! t))
    else default [] (inv !! t).
Proof.
  revert inv. induction toks as [|tok toks IH]; intros inv; cbn [fold_left].
  - rewrite decide_False; [done|]. apply not_elem_of_nil.
  - rewrite IH, unindex_token_lookup.
    assert (∀ s : JsSet.t, JsSet.delete cid (JsSet.delete cid s) = JsSet.delete cid s)
      as Hidem.
    { intros s. apply set_delete_fresh. rewrite set_delete_elem. by intros []. }
    destruct (decide (t ∈ tok :: toks)) as [Hin'|Hin'], (decide (t ∈ toks)) as [Hin|Hin],
      (decide (tok = t)) as [->|Hne]; simpl; try done.
    + destruct (inv !! t); simpl; [apply Hidem|done].
    + by destruct (inv !! t).
    + apply elem_of_cons in Hin' as [?|?]; congruence.
    + exfalso. apply Hin'. by right.
    + exfalso. apply Hin'. by right.
    + exfalso. apply Hin'. left.
Qed.

Lemma postings_remove_list ix k c t :
  chunks ix !! k = Some c →
  postings (remove ix k).1 t
  = if decide (t ∈ tokenize (content c)) then JsSet.delete k (postings ix t)
    else postings ix t.
Proof.
  intros Hk. unfold postings, remove. rewrite Hk. simpl. apply unindex_tokens_postings.
Qed.

(** [search] reads the index through the stored chunks and the posting
    sets only. *)
Lemma score_token_postings ix token (m : Scores.t) :
  score_token ix m token = fold_left bump (postings ix token) m.
Proof. unfold score_token, postings. by destruct (invertedIndex ix !! token). Qed.

Lemma raw_scores_same ix ix' tokens :
  (∀ token, postings ix' token = postings ix token) →
  raw_scores ix' tokens = raw_scores ix tokens.
Proof.
  intros Hp. unfold raw_scores. generalize ([] : Scores.t).
  induction tokens as [|token tokens IH]; intros m; simpl; [done|].
  by rewrite !score_token_postings, Hp, IH.
Qed.

Lemma search_same ix ix' query limit filters :
  chunks ix' = chunks ix →
  (∀ token, postings ix' token = postings ix token) →
  search ix' query limit filters = search ix query limit filters.
Proof.
  intros Hc Hp. unfold search, result_of. by rewrite (raw_scores_same ix ix'), Hc.
Qed.

(** X7: after [clear] the index counts no chunk and every search is empty. *)
Theorem clear_resets ix query limit filters :
  count (clear ix) = 0%nat ∧ search (clear ix) query limit filters = [].
Proof.
  split; [done|]. unfold search.
  assert (raw_scores (clear ix) (tokenize query) = []) as ->; [|apply take_nil].
  unfold raw_scores. induction (tokenize query) as [|token tokens IH]; [done|].
  simpl. unfold score_token at 2. simpl. by rewrite lookup_empty.
Qed.

(** X8: [add] raises [count] by one for a new id and leaves it for a stored
    one. *)
Theorem add_count ix c :
  count (add ix c)
  = if decide (is_Some (chunks ix !! id c)) then count ix else S (count ix).
Proof.
  unfold count, add. simpl. rewrite map_size_insert.
  destruct (chunks ix !! id c) eqn:E.
  - by rewrite decide_True.
  - rewrite decide_False; [done|]. by intros [? ?].
Qed.

(** X9: adding the same chunk twice is adding it once. *)
Theorem add_idempotent ix c : add (add ix c) c = add ix c.
Proof.
  unfold add. simpl. f_equal; [apply insert_insert_eq|].
  apply map_eq. intros t. rewrite !index_tokens_lookup.
  destruct (decide (t ∈ tokenize (content c))); [|done].
  simpl. by rewrite set_add_idem.
Qed.

(** X10: on an index kept consistent, adding a chunk under a new id and
    removing that id again gives back the same count and the same search
    results. *)
Theorem add_then_remove ops c query limit filters :
  disciplined empty ops = true →
  chunks (run ops) !! id c = None →
  let ix' := (remove (add (run ops) c) (id c)).1 in
  count ix' = count (run ops)
  ∧ search ix' query limit filters = search (run ops) query limit filters.
Proof.
  intros Hd Hfresh ix'.
  assert (consistent (run ops)) as Hcons
    by (apply disciplined_consistent; [apply empty_consistent|done]).
  assert (chunks (add (run ops) c) !! id c = Some c) as Hc by apply lookup_insert_eq.
  assert (chunks ix' = chunks (run ops)) as Hchunks.
  { unfold ix'. rewrite (remove_present _ _ c Hc). simpl. by apply delete_insert_id. }
  split; [unfold count; by rewrite Hchunks|].
  apply search_same; [done|]. intros token. unfold ix'.
  rewrite (postings_remove_list _ _ c) by done. rewrite postings_add_list.
  assert (id c ∉ postings (run ops) token) as Hout.
  { intros Hin. destruct (Hcons _ _ Hin) as (c' & Hc' & _). congruence. }
  destruct (decide (token ∈ tokenize (content c))); [|done].
  by apply set_delete_add.
Qed.

Lemma add_then_remove_witness :
  let ops := [Add (Sample.chunk_of "a" "foo bar")] in
  let c := Sample.chunk_of "b" "foo baz" in
  let ix' := (remove (add (run ops) c) (id c)).1 in
  count ix' = count (run ops)
  ∧ search ix' "foo" None None = search (run ops) "foo" None None.
Proof.
  intros ops c.
  apply (add_then_remove ops c "foo" None None); vm_compute; reflexivity.
Defined.

End IndexExtra.

(** ** What [search] returns, and what it leaves out *)

Module SearchCoverage.
Import ContainerFacts IndexFacts IndexProps SearchFacts TokenFacts RoundTrip SearchExtra
  IndexExtra.
Import SearchIndex.

Lemma bump_keys x k (m : Scores.t) : k ∈ (bump m x).*1 ↔ k = x ∨ k ∈ m.*1.
Proof.
  unfold bump. rewrite scores_set_keys. destruct (decide (x ∈ m.*1)) as [Hx|Hx].
  - split; [auto|]. by intros [->|?].
  - rewrite elem_of_app, list_elem_of_singleton. tauto.
Qed.

Lemma bumps_keys ids k (m : Scores.t) :
  k ∈ (fold_left bump ids m).*1 ↔ k ∈ ids ∨ k ∈ m.*1.
Proof.
  revert m. induction ids as [|x ids IH]; intros m; simpl.
  - split; [auto|]. intros [H|?]; [by apply elem_of_nil in H|done].
  - rewrite IH, bump_keys, elem_of_cons. tauto.
Qed.

(** The ids that get a score are those of the posting sets of the query
    tokens. *)
Lemma raw_scores_keys ix tokens k :
  k ∈ (raw_scores ix tokens).*1 ↔ ∃ token, token ∈ tokens ∧ k ∈ postings ix token.
Proof.
  unfold raw_scores.
  assert (∀ m : Scores.t,
    k ∈ (fold_left (score_token ix) tokens m).*1
    ↔ k ∈ m.*1 ∨ ∃ token, token ∈ tokens ∧ k ∈ postings ix token) as Hgen.
  { induction tokens as [|token tokens IH]; intros m; simpl.
    - split; [auto|]. intros [?|(? & H & _)]; [done|by apply elem_of_nil in H].
    - rewrite IH, score_token_postings, bumps_keys. split.
      + intros [[?|?]|(t & ? & ?)]; [right; exists token; split; [left|done]|by left|].
        right. exists t. split; [by right|done].
      + intros [?|(t & [->|?]%elem_of_cons & ?)]; [left; by right|left; by left|].
        right. by exists t. }
  rewrite Hgen. split; [|auto]. intros [H|?]; [by apply elem_of_nil in H|done].
Qed.

(** X11: on an index kept consistent, every result is a stored chunk whose
    content has a token of the query. *)
Theorem search_sound ops query limit filters :
  disciplined empty ops = true →
  Forall (λ r, chunks (run ops) !! id (chunk r) = Some (chunk r)
             ∧ ∃ token, token ∈ tokenize query ∧ token ∈ tokenize (content (chunk r)))
         (search (run ops) query limit filters).
Proof.
  intros Hd.
  assert (consistent (run ops)) as Hcons
    by (apply disciplined_consistent; [apply empty_consistent|done]).
  apply Forall_forall. intros r Hr%search_elem.
  destruct (matches_entry _ _ _ _ Hr) as (k & v & Hin & Hk & _ & _).
  rewrite (run_keyed ops _ _ Hk). split; [done|].
  assert (k ∈ (raw_scores (run ops) (tokenize query)).*1) as Hkey.
  { apply list_elem_of_fmap. by exists (k, v). }
  apply raw_scores_keys in Hkey as (token & Htok & Hpost).
  destruct (Hcons _ _ Hpost) as (c & Hc & Hcontent).
  exists token. split; [done|]. congruence.
Qed.

Lemma search_sound_witness :
  let ops := [Add (Sample.chunk_of "a" "foo bar"); Add (Sample.chunk_of "b" "baz");
              Remove "a"; Add (Sample.chunk_of "a" "foo qux")] in
  Forall (λ r, chunks (run ops) !! id (chunk r) = Some (chunk r)
             ∧ ∃ token, token ∈ tokenize "Foo baz" ∧ token ∈ tokenize (content (chunk r)))
         (search (run ops) "Foo baz" None None).
Proof.
  intros ops. apply (search_sound ops "Foo baz" None None). vm_compute. reflexivity.
Defined.

(** A stored chunk that a query token points to, and that the filters let
    through, gives a result. *)
Lemma stored_match_in_matches ix k c token query filters :
  chunks ix !! k = Some c →
  k ∈ postings ix token →
  token ∈ tokenize query →
  skipped filters c = false →
  ∃ r, r ∈ matches ix query filters ∧ chunk r = c.
Proof.
  intros Hk Hpost Htok Hskip.
  assert (k ∈ (raw_scores ix (tokenize query)).*1) as Hkey
    by (apply raw_scores_keys; eauto).
  apply list_elem_of_fmap in Hkey as ([k' v] & -> & Hin). simpl in Hk.
  set (mx := max_score (raw_scores ix (tokenize query))).
  exists {| chunk := c; score := Z.of_nat v # Pos.of_nat mx;
            highlights := getHighlights (content c) (tokenize query) None |}.
  split; [|done]. unfold matches. apply list_elem_of_omap.
  exists (k', v). split; [done|]. unfold result_of. simpl. by rewrite Hk, Hskip.
Qed.

(** A limit of at least [count] cuts no result off. *)
Lemma matches_within_limit ix query limit filters r :
  Z.of_nat (count ix) ≤ limit →
  r ∈ matches ix query filters → r ∈ search ix query (Some limit) filters.
Proof.
  intros Hlimit Hr. rewrite search_matches. simpl. rewrite array_slice0_all.
  - by rewrite sort_results_perm.
  - rewrite sort_results_perm. pose proof (matches_length ix query filters). lia.
Qed.

(** X12: a stored chunk whose id is in the posting set of a query token,
    and which passes the filters, is among the results when the limit is at
    least [count]. *)
Theorem search_complete ix k c token query limit filters :
  chunks ix !! k = Some c →
  k ∈ postings ix token →
  token ∈ tokenize query →
  skipped filters c = false →
  Z.of_nat (count ix) ≤ limit →
  ∃ r, r ∈ search ix query (Some limit) filters ∧ chunk r = c.
Proof.
  intros Hk Hpost Htok Hskip Hlimit.
  destruct (stored_match_in_matches ix k c token query filters) as (r & Hr & Hc);
    [done..|].
  exists r. split; [by apply matches_within_limit|done].
Qed.

Lemma search_complete_witness :
  let ix := run [Add (Sample.chunk_of "a" "foo bar"); Add (Sample.chunk_of "b" "bar baz")] in
  ∃ r, r ∈ search ix "qux BAR" (Some 2) None ∧ chunk r = Sample.chunk_of "b" "bar baz".
Proof.
  intros ix.
  apply (search_complete ix "b" (Sample.chunk_of "b" "bar baz") "bar" "qux BAR" 2 None).
  - vm_compute. reflexivity.
  - vm_compute. right. left.
  - vm_compute. right. left.
  - reflexivity.
  - vm_compute. discriminate.
Defined.

End SearchCoverage.

(** ** More on [chunk] *)

Module ChunkExtra.
Import LengthFacts TokenFacts.
Import ChunkingUtils.

(** *** Ids, document id and metadata *)

Lemma emit_labelled document (a : acc) buffer off :
  labelled document a →
  labelled document
    {| chunks := chunks a ++ [emit document (chunkIndex a) buffer off];
       currentChunk := EmptyString; offset := 0; chunkIndex := S (chunkIndex a) |}.
Proof.
  intros [Hids Hall]. split; cbn [chunks chunkIndex].
  - rewrite fmap_app, Hids, seq_S, fmap_app. done.
  - apply Forall_app. split; [done|]. by apply Forall_singleton.
Qed.

Lemma labelled_ext document (a b : acc) :
  chunks a = chunks b → chunkIndex a = chunkIndex b → labelled document a → labelled document b.
Proof. unfold labelled. by intros -> ->. Qed.

Lemma chunk_step_labelled cfg document a section :
  labelled document a → labelled document (chunk_step cfg document a section).
Proof.
  intros Ha. unfold chunk_step. destruct (decide _).
  - eapply labelled_ext; [| |apply (emit_labelled _ _ (currentChunk a) (offset a) Ha)]; done.
  - eapply labelled_ext; [| |exact Ha]; done.
Qed.

Lemma chunk_loop_labelled cfg document sections a :
  labelled document a → labelled document (fold_left (chunk_step cfg document) sections a).
Proof.
  revert a. induction sections as [|s sections IH]; intros a Ha; simpl; [done|].
  by apply IH, chunk_step_labelled.
Qed.

Lemma chunk_ids_seq cfg document :
  id <$> ChunkingUtils.chunk cfg document
  = chunk_id document <$> seq 0 (length (ChunkingUtils.chunk cfg document)).
Proof.
  unfold ChunkingUtils.chunk. destruct (decide _); [done|].
  match goal with |- context [fold_left ?f ?l ?a0] =>
    pose proof (chunk_loop_labelled cfg document l a0) as Hl;
    destruct (fold_left f l a0) as [cks cur off idx] eqn:E end.
  destruct Hl as [Hids _]; [by split|]. simpl in *.
  assert (length cks = idx) as Hlen.
  { apply (f_equal length) in Hids. by rewrite !length_fmap, length_seq in Hids. }
  destruct (decide _); simpl; [|by rewrite Hlen].
  rewrite length_app, Hlen. simpl. by rewrite Nat.add_1_r, seq_S, !fmap_app, Hids.
Qed.

(** X15: the ids of the chunks of a document are [<id>-chunk-0],
    [<id>-chunk-1], ... in order, and every chunk carries the document's id
    and metadata and no title. *)
Theorem chunk_labels cfg document :
  let cs := ChunkingUtils.chunk cfg document in
  id <$> cs = chunk_id document <$> seq 0 (length cs)
  ∧ Forall (λ c, documentId c = Document.id document
               ∧ metadata c = Document.metadata document ∧ title c = None) cs.
Proof.
  unfold ChunkingUtils.chunk. destruct (decide _); [by repeat constructor|].
  match goal with |- context [fold_left ?f ?l ?a0] =>
    pose proof (chunk_loop_labelled cfg document l a0) as Hl;
    destruct (fold_left f l a0) as [cks cur off idx] eqn:E end.
  destruct Hl as [Hids Hall]; [by split|]. simpl in *.
  assert (length cks = idx) as Hlen.
  { apply (f_equal length) in Hids. by rewrite !length_fmap, length_seq in Hids. }
  destruct (decide _); simpl.
  - rewrite length_app, Hlen. simpl. rewrite Nat.add_1_r, seq_S, !fmap_app, Hids.
    split; [done|]. apply Forall_app. split; [done|]. by apply Forall_singleton.
  - by rewrite Hlen.
Qed.

(** *** Offsets *)

Lemma chain_snoc ov start l c :
  chain ov start l → startOffset c = next_start ov start l → chain ov start (l ++ [c]).
Proof.
  revert start. induction l as [|d l IH]; intros start; simpl.
  - intros _ Hc. split; [exact Hc|done].
  - intros [Hd Hl] Hc. split; [done|]. apply IH; [done|].
    rewrite Hc. unfold next_start. destruct l as [|e l]; [reflexivity|].
    change (last (d :: e :: l)) with (last (e :: l)).
    destruct (last (e :: l)) eqn:E; [done|]. by apply last_None in E.
Qed.

Lemma next_start_snoc ov start l c : next_start ov start (l ++ [c]) = endOffset c - ov.
Proof. unfold next_start. by rewrite last_snoc. Qed.

Lemma emit_extent document i buffer off :
  Js.len (content (emit document i buffer off))
  ≤ endOffset (emit document i buffer off) - startOffset (emit document i buffer off).
Proof. simpl. pose proof (len_trim buffer). lia. Qed.

Lemma chunk_step_tracked cfg document a section :
  tracked cfg a → tracked cfg (chunk_step cfg document a section).
Proof.
  intros (Hchain & Hoff & Hext). unfold chunk_step. destruct (decide _); [|done].
  split_and!; simpl.
  - apply chain_snoc; [done|]. simpl. done.
  - rewrite next_start_snoc. simpl. lia.
  - apply Forall_app. split; [done|]. apply Forall_singleton, emit_extent.
Qed.

Lemma chunk_loop_tracked cfg document sections a :
  tracked cfg a → tracked cfg (fold_left (chunk_step cfg document) sections a).
Proof.
  revert a. induction sections as [|s sections IH]; intros a Ha; simpl; [done|].
  by apply IH, chunk_step_tracked.
Qed.

(** X17: the first chunk starts at offset 0, every next chunk starts
    [overlap] before the end of the one before it, and the span of a chunk is
    at least as long as its content. *)
Theorem chunk_offsets cfg document :
  let cs := ChunkingUtils.chunk cfg document in
  chain (overlap cfg) 0 cs
  ∧ Forall (λ c, Js.len (content c) ≤ endOffset c - startOffset c) cs.
Proof.
  unfold ChunkingUtils.chunk. destruct (decide _).
  - split; [done|]. apply Forall_singleton. simpl. lia.
  - match goal with |- context [fold_left ?f ?l ?a0] =>
      destruct (chunk_loop_tracked cfg document l a0) as (Hchain & Hoff & Hext) end.
    { split_and!; [done|done|apply Forall_nil_2]. }
    destruct (decide _); [|done]. split.
    + apply chain_snoc; [done|]. simpl. done.
    + apply Forall_app. split; [done|]. apply Forall_singleton, emit_extent.
Qed.

End ChunkExtra.

(** ** Sections *)

Module SectionFacts.
Import LengthFacts TokenFacts.
Import ChunkingUtils.

Lemma append_assoc a b c : (a +:+ b) +:+ c = a +:+ (b +:+ c).
Proof. induction a as [|d a IH]; [done|]. by rewrite !append_cons, IH. Qed.

Lemma blank_app a b : blank (a +:+ b) = blank a && blank b.
Proof.
  unfold blank. induction a as [|d a IH]; [done|].
  rewrite append_cons. simpl. by rewrite IH, andb_assoc.
Qed.

Lemma blank_snoc cur c : blank (Js.snoc cur c) = blank cur && Js.is_space c.
Proof. unfold blank. apply all_chars_snoc. Qed.

Lemma trimStart_blank s : Js.trimStart s = EmptyString ↔ blank s = true.
Proof.
  unfold blank. induction s as [|c s IH]; simpl; [done|].
  destruct (Js.is_space c); simpl; [done|]. split; discriminate.
Qed.

Lemma blank_trimStart s : blank (Js.trimStart s) = blank s.
Proof.
  unfold blank. induction s as [|c s IH]; simpl; [done|].
  destruct (Js.is_space c) eqn:E; simpl; [done|]. by rewrite E.
Qed.

Lemma trimEnd_blank s : Js.trimEnd s = EmptyString ↔ blank s = true.
Proof.
  unfold blank. induction s as [|c s IH]; simpl; [done|].
  destruct (Js.trimEnd s) eqn:E.
  - destruct (Js.is_space c); simpl.
    + split; [intros _; by apply IH|done].
    + split; discriminate.
  - split; [discriminate|]. intros [_ H]%andb_true_iff. apply IH in H. discriminate.
Qed.

Lemma trim_blank s : Js.trim s = EmptyString ↔ blank s = true.
Proof. unfold Js.trim. by rewrite trimEnd_blank, blank_trimStart. Qed.

Lemma nonblank_blank s : nonblank s = negb (blank s).
Proof.
  unfold nonblank. destruct (blank s) eqn:E.
  - apply trim_blank in E. by rewrite E.
  - destruct (String.eqb_spec (Js.trim s) EmptyString) as [H|H]; [|done].
    apply trim_blank in H. congruence.
Qed.

Lemma trim_len_blank s : 0 < Js.len (Js.trim s) ↔ blank s = false.
Proof.
  destruct (blank s) eqn:E.
  - apply trim_blank in E. rewrite E. by split.
  - split; [done|]. intros _. destruct (Js.trim s) eqn:Et.
    + apply trim_blank in Et. congruence.
    + unfold Js.len. simpl. lia.
Qed.

(** *** No section is blank *)

Lemma splitParagraphs_nonblank content :
  Forall (λ s, blank s = false) (splitParagraphs content).
Proof.
  unfold splitParagraphs. apply Forall_forall.
  intros s [Hs _]%list_elem_of_filter. by apply trim_len_blank.
Qed.

Lemma markdown_step_nonblank st line :
  Forall (λ s, blank s = false) st.1 →
  Forall (λ s, blank s = false) (markdown_step st line).1.
Proof.
  destruct st as [sections cur]. simpl. intros Hs.
  destruct (is_header line).
  - rewrite nonblank_blank. destruct (blank cur) eqn:E; simpl; [done|].
    apply Forall_app. split; [done|]. by apply Forall_singleton.
  - rewrite nonblank_blank. destruct (String.eqb (Js.trim line) EmptyString); simpl; [|done].
    destruct (blank cur) eqn:E; simpl; [done|].
    apply Forall_app. split; [done|]. apply Forall_singleton.
    by rewrite blank_app, E.
Qed.

Lemma splitMarkdown_nonblank content :
  Forall (λ s, blank s = false) (splitMarkdown content).
Proof.
  unfold splitMarkdown.
  assert (∀ lines st, Forall (λ s, blank s = false) st.1 →
            Forall (λ s, blank s = false) (fold_left markdown_step lines st).1) as Hloop.
  { induction lines as [|line lines IH]; intros st Hst; simpl; [done|].
    by apply IH, markdown_step_nonblank. }
  specialize (Hloop (Js.split_lines content) ([], EmptyString) (Forall_nil_2 _)).
  destruct (fold_left _ _ _) as [sections cur]. simpl in Hloop.
  rewrite nonblank_blank. destruct (blank cur) eqn:E; simpl; [done|].
  apply Forall_app. split; [done|]. by apply Forall_singleton.
Qed.

Lemma code_step_nonblank st line :
  Forall (λ s, blank s = false) st.1.1 →
  Forall (λ s, blank s = false) (code_step st line).1.1.
Proof.
  destruct st as [[sections cur] depth]. simpl. intros Hs.
  destruct (_ && _); [|done]. rewrite nonblank_blank.
  destruct (blank _) eqn:E; simpl; [done|].
  apply Forall_app. split; [done|]. by apply Forall_singleton.
Qed.

Lemma splitCode_nonblank content :
  Forall (λ s, blank s = false) (splitCode content).
Proof.
  unfold splitCode.
  assert (∀ lines st, Forall (λ s, blank s = false) st.1.1 →
            Forall (λ s, blank s = false) (fold_left code_step lines st).1.1) as Hloop.
  { induction lines as [|line lines IH]; intros st Hst; simpl; [done|].
    by apply IH, code_step_nonblank. }
  specialize (Hloop (Js.split_lines content) ([], EmptyString, 0) (Forall_nil_2 _)).
  destruct (fold_left _ _ _) as [[sections cur] depth]. simpl in Hloop.
  rewrite nonblank_blank. destruct (blank cur) eqn:E; simpl; [done|].
  apply Forall_app. split; [done|]. by apply Forall_singleton.
Qed.

(** X20: no section of [splitParagraphs], [splitMarkdown] or [splitCode] is
    made of white space only. *)
Theorem sections_nonblank content type :
  Forall (λ s, blank s = false) (splitSemantically content type).
Proof.
  destruct type; simpl;
    auto using splitParagraphs_nonblank, splitMarkdown_nonblank, splitCode_nonblank.
Qed.

(** *** Chunks of a long document *)

Lemma emit_nonempty document i buffer off :
  blank buffer = false → content (emit document i buffer off) ≠ EmptyString.
Proof. intros Hb. simpl. rewrite trim_blank. congruence. Qed.

Lemma chunk_step_filled cfg document a section :
  blank section = false → filled a →
  filled (chunk_step cfg document a section)
  ∧ blank (currentChunk (chunk_step cfg document a section)) = false.
Proof.
  intros Hsec [Hchunks Hbuf]. unfold chunk_step.
  destruct (decide _) as [[_ Hpos]|_]; unfold filled; cbn [chunks currentChunk].
  - split; [split|].
    + apply Forall_app. split; [done|]. apply Forall_singleton, emit_nonempty.
      destruct Hbuf as [Hbuf|Hbuf]; [|done]. rewrite Hbuf in Hpos. done.
    + right. by rewrite blank_app, Hsec, andb_false_r.
    + by rewrite blank_app, Hsec, andb_false_r.
  - split; [split; [done|right]|]; by rewrite blank_app, Hsec, andb_false_r.
Qed.

Lemma chunk_loop_filled cfg document sections a :
  Forall (λ s, blank s = false) sections → filled a →
  filled (fold_left (chunk_step cfg document) sections a)
  ∧ (sections ≠ [] →
     blank (currentChunk (fold_left (chunk_step cfg document) sections a)) = false).
Proof.
  intros Hsecs. revert a. induction Hsecs as [|s sections Hs _ IH]; intros a Ha; simpl.
  - by split.
  - destruct (chunk_step_filled cfg document a s Hs Ha) as [Ha' Hb'].
    destruct (IH _ Ha') as [Hf Hb]. split; [done|]. intros _.
    destruct sections as [|s' sections]; [exact Hb'|]. by apply Hb.
Qed.

(** X18: for a content longer than [chunkSize], no chunk has an empty
    content, and there is no chunk at all exactly when the split gives no
    section. *)
Theorem chunk_long_document cfg document :
  Js.len (Document.content document) > chunkSize cfg →
  let cs := ChunkingUtils.chunk cfg document in
  Forall (λ c, content c ≠ EmptyString) cs
  ∧ (cs = [] ↔ splitSemantically (Document.content document) (Document.type document) = []).
Proof.
  intros Hlong. unfold ChunkingUtils.chunk. rewrite decide_False by lia.
  set (sections := splitSemantically _ _).
  assert (Forall (λ s, blank s = false) sections) as Hsections.
  { unfold sections. destruct (Document.type document); simpl;
      auto using splitParagraphs_nonblank, splitMarkdown_nonblank, splitCode_nonblank. }
  destruct (chunk_loop_filled cfg document sections
              {| chunks := []; currentChunk := EmptyString; offset := 0; chunkIndex := O |}
              Hsections) as [[Hchunks Hbuf] Hlast].
  { split; [constructor|by left]. }
  destruct (decide _) as [Hpos|Hzero].
  - split.
    + apply Forall_app. split; [done|]. apply Forall_singleton, emit_nonempty.
      by apply trim_len_blank; lia.
    + split; [intros Happ; by destruct (chunks _)|].
      intros Hnil. exfalso. revert Hpos. rewrite Hnil. simpl. unfold Js.len. simpl. lia.
  - split; [done|]. split.
    + intros Hnil. destruct sections; [done|]. exfalso.
      apply Hzero. apply Z.lt_gt, trim_len_blank. by apply Hlast.
    + intros Hnil. by rewrite Hnil.
Qed.

Lemma chunk_long_document_witness :
  let cfg := new (Some 8) (Some 2) in
  let cs := ChunkingUtils.chunk cfg Sample.three_paragraphs in
  Js.len (Document.content Sample.three_paragraphs) > chunkSize cfg
  ∧ Forall (λ c, content c ≠ EmptyString) cs
  ∧ (cs = [] ↔ splitSemantically (Document.content Sample.three_paragraphs)
                 (Document.type Sample.three_paragraphs) = []).
Proof.
  intros cfg.
  assert (Js.len (Document.content Sample.three_paragraphs) > chunkSize cfg) as Hlong
    by (vm_compute; reflexivity).
  split; [exact Hlong|]. exact (chunk_long_document cfg Sample.three_paragraphs Hlong).
Defined.

(** *** A document of white space only *)

(** Induction that reaches the tail of the tail, as [split(/\n\n+/)] does. *)
Lemma string_ind2 (P : string → Prop) :
  P EmptyString →
  (∀ c, P (String c EmptyString)) →
  (∀ c d s, P s → P (String d s) → P (String c (String d s))) →
  ∀ s, P s.
Proof.
  intros H0 H1 H2 s.
  assert (P s ∧ ∀ c, P (String c s)) as [Hs _]; [|done].
  induction s as [|d s [IH1 IH2]]; [by split|]. split; [apply IH2|].
  intros c. by apply H2.
Qed.

Lemma split_blank_go_cons2 cur in_sep c d s :
  Js.split_blank_go cur in_sep (String c (String d s))
  = if Js.is_nl c then
      if in_sep then Js.split_blank_go EmptyString true (String d s)
      else if Js.is_nl d then cur :: Js.split_blank_go EmptyString true s
           else Js.split_blank_go (Js.snoc cur c) false (String d s)
    else Js.split_blank_go (Js.snoc cur c) false (String d s).
Proof. reflexivity. Qed.

Lemma split_blank_go_blank s cur in_sep :
  blank cur = true → blank s = true →
  Forall (λ p, blank p = true) (Js.split_blank_go cur in_sep s).
Proof.
  revert cur in_sep. induction s as [|c|c d s IH1 IH2] using string_ind2;
    intros cur in_sep Hcur Hs.
  - by apply Forall_singleton.
  - unfold blank in Hs. simpl in Hs. rewrite andb_true_r in Hs.
    assert (blank (Js.snoc cur c) = true) as Hsnoc by (by rewrite blank_snoc, Hcur, Hs).
    simpl. destruct (Js.is_nl c), in_sep; by apply Forall_singleton.
  - assert (Js.is_space c = true ∧ blank (String d s) = true) as [Hc Hds].
    { unfold blank in *. simpl in *. by apply andb_true_iff in Hs. }
    assert (blank s = true) as Hs'.
    { unfold blank in *. simpl in *. by apply andb_true_iff in Hds as [_ ?]. }
    assert (blank (Js.snoc cur c) = true) as Hsnoc by (by rewrite blank_snoc, Hcur, Hc).
    rewrite split_blank_go_cons2. destruct (Js.is_nl c); [|by apply IH2].
    destruct in_sep; [by apply IH2|].
    destruct (Js.is_nl d); [|by apply IH2].
    constructor; [done|]. by apply IH1.
Qed.

Lemma split_lines_go_blank s cur :
  blank cur = true → blank s = true →
  Forall (λ p, blank p = true) (Js.split_lines_go cur s).
Proof.
  revert cur. induction s as [|c s IH]; intros cur Hcur Hs; simpl.
  - by apply Forall_singleton.
  - unfold blank in Hs. simpl in Hs. apply andb_true_iff in Hs as [Hc Hs].
    destruct (Js.is_nl c).
    + constructor; [done|]. by apply IH.
    + apply IH; [|done]. by rewrite blank_snoc, Hcur, Hc.
Qed.

Lemma blank_nl : blank nl = true.
Proof. reflexivity. Qed.

Lemma splitParagraphs_blank content : blank content = true → splitParagraphs content = [].
Proof.
  intros Hb. unfold splitParagraphs, Js.split_blank.
  pose proof (split_blank_go_blank content EmptyString false eq_refl Hb) as Hpieces.
  induction Hpieces as [|p pieces Hp _ IH]; csimpl; [done|].
  rewrite filter_cons, decide_False; [exact IH|].
  apply trim_blank in Hp. rewrite Hp. intros Hlt. by apply trim_len_blank in Hlt.
Qed.

Lemma is_header_blank line : blank line = true → is_header line = false.
Proof.
  unfold blank, is_header. destruct line as [|c line]; [done|]. simpl.
  intros [Hc _]%andb_true_iff.
  destruct (Ascii.eqb_spec c "#") as [->|Hne]; [done|].
  destruct c as [[] [] [] [] [] [] [] []]; try done. 
Qed.

Lemma splitMarkdown_blank content : blank content = true → splitMarkdown content = [].
Proof.
  intros Hb. unfold splitMarkdown, Js.split_lines.
  pose proof (split_lines_go_blank content EmptyString eq_refl Hb) as Hlines.
  assert (∀ lines cur, Forall (λ p, blank p = true) lines → blank cur = true →
            ∃ cur', fold_left markdown_step lines ([], cur) = ([], cur')
                    ∧ blank cur' = true) as Hloop.
  { clear. intros lines cur Hlines. revert cur.
    induction Hlines as [|line lines Hline _ IH]; intros cur Hcur; simpl; [by exists cur|].
    rewrite is_header_blank, nonblank_blank, Hcur, andb_false_r by done. simpl.
    apply IH. by rewrite !blank_app, Hcur, Hline. }
  destruct (Hloop _ EmptyString Hlines eq_refl) as (cur' & -> & Hcur').
  by rewrite nonblank_blank, Hcur'.
Qed.

Lemma splitCode_blank content : blank content = true → splitCode content = [].
Proof.
  intros Hb. unfold splitCode, Js.split_lines.
  pose proof (split_lines_go_blank content EmptyString eq_refl Hb) as Hlines.
  assert (∀ lines cur depth, Forall (λ p, blank p = true) lines → blank cur = true →
            ∃ cur' depth', fold_left code_step lines ([], cur, depth) = ([], cur', depth')
                    ∧ blank cur' = true) as Hloop.
  { clear. intros lines cur depth Hlines. revert cur depth.
    induction Hlines as [|line lines Hline _ IH]; intros cur depth Hcur; simpl;
      [by exists cur, depth|].
    assert (blank (cur +:+ line +:+ nl) = true) as Hnext
      by (by rewrite !blank_app, Hcur, Hline).
    rewrite nonblank_blank, Hnext. simpl.
    destruct (_ && _); by apply IH. }
  destruct (Hloop _ EmptyString 0 Hlines eq_refl) as (cur' & depth' & -> & Hcur').
  by rewrite nonblank_blank, Hcur'.
Qed.

(** X19: a content of white space only gives one chunk holding it when it
    fits in [chunkSize], and no chunk when it is longer, for every document
    type. *)
Theorem chunk_blank_document cfg document :
  blank (Document.content document) = true →
  ChunkingUtils.chunk cfg document
  = if decide (Js.len (Document.content document) ≤ chunkSize cfg)
    then [ {| id := chunk_id document 0;
              documentId := Document.id document;
              content := Document.content document;
              title := None;
              startOffset := 0;
              endOffset := Js.len (Document.content document);
              metadata := Document.metadata document |} ]
    else [].
Proof.
  intros Hb. unfold ChunkingUtils.chunk. destruct (decide _); [done|].
  assert (splitSemantically (Document.content document) (Document.type document) = [])
    as ->; [|done].
  destruct (Document.type document); simpl;
    auto using splitParagraphs_blank, splitMarkdown_blank, splitCode_blank.
Qed.

Lemma chunk_blank_document_witness :
  ChunkingUtils.chunk (new (Some 3) (Some 1)) (Sample.text_doc "d" "     ") = [].
Proof.
  exact (chunk_blank_document (new (Some 3) (Some 1)) (Sample.text_doc "d" "     ") eq_refl).
Defined.

(** *** [splitCode] keeps the text *)

Lemma is_nl_char c : Js.is_nl c = true → c = "010"%char.
Proof. each_char c; intros; discriminate. Qed.

Lemma split_lines_go_flat s cur :
  flat ((λ line, line +:+ nl) <$> Js.split_lines_go cur s) = cur +:+ s +:+ nl.
Proof.
  revert cur. induction s as [|c s IH]; intros cur; simpl.
  - by rewrite append_empty_r.
  - destruct (Js.is_nl c) eqn:E.
    + apply is_nl_char in E as ->. csimpl. rewrite IH. unfold flat. simpl.
      by rewrite append_assoc.
    + by rewrite IH, append_snoc.
Qed.

Lemma flat_snoc l x : flat (l ++ [x]) = flat l +:+ x.
Proof.
  unfold flat. induction l as [|y l IH]; simpl; [by rewrite append_empty_r|].
  by rewrite IH, append_assoc.
Qed.

Lemma code_loop_flat lines sections cur depth :
  ∃ sections' cur' depth',
    fold_left code_step lines (sections, cur, depth) = (sections', cur', depth')
    ∧ flat sections' +:+ cur'
      = flat sections +:+ cur +:+ flat ((λ line, line +:+ nl) <$> lines).
Proof.
  revert sections cur depth. induction lines as [|line lines IH]; intros sections cur depth.
  - exists sections, cur, depth. split; [done|]. simpl. by rewrite append_empty_r.
  - cbn [fold_left]. set (cur1 := cur +:+ line +:+ nl).
    assert (∃ sections1 cur2 depth1,
      code_step (sections, cur, depth) line = (sections1, cur2, depth1)
      ∧ flat sections1 +:+ cur2 = flat sections +:+ cur1) as (s1 & c2 & d1 & Hstep & Hflat).
    { unfold code_step. fold cur1. destruct (_ && _); [|by eauto].
      destruct (nonblank cur1); [|by eauto].
      do 3 eexists. split; [done|]. by rewrite flat_snoc, append_empty_r. }
    rewrite Hstep. destruct (IH s1 c2 d1) as (s' & c' & d' & Hloop & Hflat').
    exists s', c', d'. split; [done|].
    rewrite Hflat', <-append_assoc, Hflat. unfold cur1, flat. csimpl.
    by rewrite !append_assoc.
Qed.

(** X21: [splitCode] keeps the text: its sections, put end to end and
    followed by white space at most, are the content and a final line feed. *)
Theorem splitCode_keeps_text content :
  ∃ rest, blank rest = true ∧ flat (splitCode content) +:+ rest = content +:+ nl.
Proof.
  unfold splitCode, Js.split_lines.
  destruct (code_loop_flat (Js.split_lines_go EmptyString content) [] EmptyString 0)
    as (sections & cur & depth & -> & Hflat).
  rewrite split_lines_go_flat in Hflat. simpl in Hflat.
  rewrite nonblank_blank. destruct (blank cur) eqn:E; simpl.
  - by exists cur.
  - exists EmptyString. split; [done|]. by rewrite flat_snoc, append_empty_r.
Qed.

End SectionFacts.

(** ** [mergeSmallChunks] *)

Module MergeProps.
Import LengthFacts TokenFacts SectionFacts.
Import ChunkingUtils.

Lemma merge_step_some minSize merged cur chunk :
  ∃ merged' cur', merge_step minSize (merged, Some cur) chunk = (merged', Some cur').
Proof. simpl. destruct (_ <? _); eauto. Qed.

(** The result of the loop started with a chunk in hand. *)
Lemma merge_loop_some minSize chunks merged cur :
  ∃ merged' cur', fold_left (merge_step minSize) chunks (merged, Some cur)
                  = (merged', Some cur').
Proof.
  revert merged cur. induction chunks as [|c chunks IH]; intros merged cur; [by eauto|].
  cbn [fold_left]. destruct (merge_step_some minSize merged cur c) as (m & c' & ->).
  apply IH.
Qed.

Lemma merge_cons c0 rest minSize :
  mergeSmallChunks (c0 :: rest) minSize
  = let '(merged, current) :=
      fold_left (merge_step (default 100 minSize)) rest ([], Some c0) in
    match current with Some cur => merged ++ [cur] | None => merged end.
Proof. reflexivity. Qed.

(** *** Sizes *)

Lemma merge_loop_big minSize chunks merged cur merged' cur' :
  Forall (big minSize) merged →
  fold_left (merge_step (default 100 minSize)) chunks (merged, Some cur) = (merged', Some cur') →
  Forall (big minSize) merged'.
Proof.
  revert merged cur. induction chunks as [|c chunks IH]; intros merged cur Hm; cbn [fold_left].
  - by intros [= <- _].
  - unfold merge_step at 2. destruct (_ <? _) eqn:E; [by apply IH|].
    apply IH, Forall_app. split; [done|]. apply Forall_singleton. unfold big. lia.
Qed.

(** *** Nothing to merge *)

Lemma merge_loop_id minSize rest merged cur :
  Forall (big minSize) (removelast (cur :: rest)) →
  ∃ cur', fold_left (merge_step (default 100 minSize)) rest (merged, Some cur)
          = (merged ++ removelast (cur :: rest), Some cur')
          ∧ last (cur :: rest) = Some cur'.
Proof.
  revert merged cur. induction rest as [|c rest IH]; intros merged cur Hbig.
  - exists cur. by rewrite app_nil_r.
  - change (removelast (cur :: c :: rest)) with (cur :: removelast (c :: rest)) in *.
    apply Forall_cons in Hbig as [Hcur Hbig]. cbn [fold_left].
    unfold merge_step at 2. unfold big in Hcur.
    destruct (_ <? _) eqn:E; [lia|].
    destruct (IH (merged ++ [cur]) c Hbig) as (cur' & -> & Hlast).
    exists cur'. by rewrite <-app_assoc.
Qed.

(** Chunks that are big, followed by one more chunk, are left as they are. *)
Lemma merge_snoc_big minSize merged cur :
  Forall (big minSize) merged →
  mergeSmallChunks (merged ++ [cur]) minSize = merged ++ [cur].
Proof.
  intros Hbig. destruct (merged ++ [cur]) as [|c0 rest] eqn:E; [by destruct merged|].
  rewrite merge_cons.
  destruct (merge_loop_id minSize rest [] c0) as (cur' & -> & Hlast).
  { by rewrite <-E, removelast_last. }
  rewrite app_nil_l. rewrite <-E in *. rewrite last_snoc in Hlast.
  injection Hlast as <-. by rewrite removelast_last.
Qed.

(** X22: after [mergeSmallChunks] every chunk but the last has at least
    [minSize] characters. *)
Theorem merge_sizes chunks minSize :
  Forall (big minSize) (removelast (mergeSmallChunks chunks minSize)).
Proof.
  destruct chunks as [|c0 rest]; [constructor|]. rewrite merge_cons.
  destruct (merge_loop_some (default 100 minSize) rest [] c0) as (merged & cur & Hloop).
  rewrite Hloop, removelast_last.
  by eapply merge_loop_big; [|exact Hloop].
Qed.

(** X23: when every chunk but the last has at least [minSize] characters,
    [mergeSmallChunks] returns the chunks as they are. *)
Theorem merge_nothing_small chunks minSize :
  Forall (big minSize) (removelast chunks) → mergeSmallChunks chunks minSize = chunks.
Proof.
  intros Hbig. destruct chunks as [|c0 rest] using rev_ind; [done|].
  rewrite removelast_last in Hbig. by apply merge_snoc_big.
Qed.

Lemma merge_nothing_small_witness :
  let chunks := [Sample.chunk_of "a" "abcdef"; Sample.chunk_of "b" "abcde";
                 Sample.chunk_of "c" "ab"] in
  Forall (big (Some 5)) (removelast chunks)
  ∧ mergeSmallChunks chunks (Some 5) = chunks.
Proof.
  intros chunks.
  assert (Forall (big (Some 5)) (removelast chunks)) as Hbig
    by (repeat constructor; vm_compute; discriminate).
  split; [exact Hbig|]. exact (merge_nothing_small chunks (Some 5) Hbig).
Defined.

(** X24: merging a second time changes nothing. *)
Theorem merge_idempotent chunks minSize :
  mergeSmallChunks (mergeSmallChunks chunks minSize) minSize
  = mergeSmallChunks chunks minSize.
Proof.
  destruct chunks as [|c0 rest]; [done|]. rewrite merge_cons.
  destruct (merge_loop_some (default 100 minSize) rest [] c0) as (merged & cur & Hloop).
  rewrite Hloop. apply merge_snoc_big.
  by eapply merge_loop_big; [|exact Hloop].
Qed.

(** *** The text and the span *)

Lemma concat_cons sep x y l :
  String.concat sep (x :: y :: l) = x +:+ sep +:+ String.concat sep (y :: l).
Proof. reflexivity. Qed.

Lemma concat_merge sep l a b r :
  String.concat sep (l ++ a :: b :: r) = String.concat sep (l ++ (a +:+ sep +:+ b) :: r).
Proof.
  induction l as [|x l IH].
  - destruct r as [|y r]; [done|]. simpl app. rewrite !concat_cons.
    by rewrite !append_assoc.
  - destruct l as [|y l].
    + simpl app in *. by rewrite (concat_cons _ x), IH.
    + change ((x :: y :: l) ++ a :: b :: r) with (x :: y :: (l ++ a :: b :: r)).
      change ((x :: y :: l) ++ (a +:+ sep +:+ b) :: r)
        with (x :: y :: (l ++ (a +:+ sep +:+ b) :: r)).
      rewrite !concat_cons. do 2 f_equal. exact IH.
Qed.

Lemma merge_loop_texts minSize chunks merged cur merged' cur' :
  fold_left (merge_step minSize) chunks (merged, Some cur) = (merged', Some cur') →
  texts (merged' ++ [cur']) = texts (merged ++ cur :: chunks).
Proof.
  revert merged cur. induction chunks as [|c chunks IH]; intros merged cur; cbn [fold_left].
  - by intros [= <- <-].
  - unfold merge_step at 2. destruct (_ <? _).
    + intros Hloop%IH. rewrite Hloop. unfold texts.
      rewrite !fmap_app, !fmap_cons. cbn [content]. by rewrite concat_merge.
    + intros Hloop%IH. rewrite Hloop. by rewrite <-app_assoc.
Qed.

(** X25: [mergeSmallChunks] keeps the text: the contents joined by line
    feeds are the same before and after. *)
Theorem merge_keeps_text chunks minSize :
  texts (mergeSmallChunks chunks minSize) = texts chunks.
Proof.
  destruct chunks as [|c0 rest]; [done|]. rewrite merge_cons.
  destruct (merge_loop_some (default 100 minSize) rest [] c0) as (merged & cur & Hloop).
  rewrite Hloop. by rewrite (merge_loop_texts _ _ _ _ _ _ Hloop).
Qed.

Lemma last_default_cons {A} (x y : A) l : default x (last (y :: l)) = default y (last l).
Proof.
  destruct l as [|z l]; [done|]. rewrite last_cons_cons.
  destruct (last (z :: l)) eqn:E; [done|]. by apply last_None in E.
Qed.

(** The first chunk of a group gives its id and start, the last one its end. *)
Lemma merge_loop_span minSize chunks merged cur merged' cur' c0 :
  fold_left (merge_step minSize) chunks (merged, Some cur) = (merged', Some cur') →
  head (merged ++ [cur]) = Some c0 ∨
    (∃ d, head (merged ++ [cur]) = Some d ∧ id d = id c0 ∧ startOffset d = startOffset c0) →
  (∃ d, head (merged' ++ [cur']) = Some d ∧ id d = id c0 ∧ startOffset d = startOffset c0)
  ∧ endOffset cur' = endOffset (default cur (last chunks))
  ∧ (length (merged' ++ [cur']) ≤ length (merged ++ cur :: chunks))%nat.
Proof.
  revert merged cur. induction chunks as [|c chunks IH]; intros merged cur; cbn [fold_left].
  - intros [= <- <-] [H|H]; (split_and!; [|done|done]); [by exists c0|done].
  - intros Hloop Hhead.
    assert (∃ d, head (merged ++ [cur]) = Some d ∧ id d = id c0
                 ∧ startOffset d = startOffset c0) as (d & Hd & Hid & Hstart).
    { destruct Hhead as [H|H]; [by exists c0|done]. }
    unfold merge_step at 2 in Hloop. destruct (_ <? _).
    + apply IH in Hloop as (Hh & Hend & Hlen).
      * split_and!; [done| |].
        -- rewrite Hend, last_default_cons. by destruct (last chunks).
        -- rewrite !length_app in *. simpl in *. lia.
      * right. destruct merged as [|m merged]; simpl in *.
        -- injection Hd as <-. eexists. by split.
        -- by exists d.
    + apply IH in Hloop as (Hh & Hend & Hlen).
      * split_and!; [done| |].
        -- by rewrite Hend, last_default_cons.
        -- rewrite !length_app in *. simpl in *. lia.
      * right. exists d. split; [|done].
        destruct merged as [|m merged]; simpl in *; done.
Qed.

(** X26: the first merged chunk keeps the id and the start of the first
    chunk, the last merged chunk ends where the last chunk ends, and there are
    no more chunks than before. *)
Theorem merge_span c0 rest minSize :
  ∃ o0 outs,
    mergeSmallChunks (c0 :: rest) minSize = o0 :: outs
    ∧ id o0 = id c0 ∧ startOffset o0 = startOffset c0
    ∧ endOffset <$> last (o0 :: outs) = endOffset <$> last (c0 :: rest)
    ∧ (length (o0 :: outs) ≤ length (c0 :: rest))%nat.
Proof.
  rewrite merge_cons.
  destruct (merge_loop_some (default 100 minSize) rest [] c0) as (merged & cur & Hloop).
  rewrite Hloop.
  destruct (merge_loop_span _ _ _ _ _ _ c0 Hloop) as ((d & Hd & Hid & Hstart) & Hend & Hlen).
  { by left. }
  destruct (merged ++ [cur]) as [|o0 outs] eqn:E; [done|].
  injection Hd as ->. exists d, outs. split_and!; try done.
  - rewrite <-E, last_snoc. simpl. rewrite Hend.
    destruct rest as [|c rest]; [done|]. rewrite last_cons_cons.
    destruct (last (c :: rest)) eqn:El; [done|]. by apply last_None in El.
Qed.

End MergeProps.

(** ** The document store *)

Module StoreProps.
Import DocumentStore.

(** *** The insertion-ordered map *)

Section map.
Context {V : Type}.
Implicit Types m : list (string * V).

Lemma map_get_set k k' v m :
  JsMap.get k (JsMap.set k' v m) = if decide (k' = k) then Some v else JsMap.get k m.
Proof.
  induction m as [|[k0 v0] m IH]; simpl.
  - by destruct (decide (k' = k)).
  - destruct (decide (k0 = k')) as [->|]; simpl.
    + destruct (decide (k' = k)); done.
    + rewrite IH. destruct (decide (k0 = k)), (decide (k' = k)); congruence.
Qed.

Lemma map_get_None k m : JsMap.get k m = None ↔ k ∉ m.*1.
Proof.
  induction m as [|[k0 v0] m IH]; csimpl.
  - split; [intros _ H; by apply elem_of_nil in H|done].
  - destruct (decide (k0 = k)) as [->|].
    + split; [done|]. intros []. left.
    + rewrite IH, not_elem_of_cons. split; [intros ?; split; congruence|by intros [_ ?]].
Qed.

Lemma map_has k m : JsMap.has k m = bool_decide (k ∈ m.*1).
Proof.
  unfold JsMap.has. apply bool_decide_ext. rewrite <-not_eq_None_Some, map_get_None.
  split; [apply dec_stable|auto].
Qed.

Lemma map_set_keys k v m :
  (JsMap.set k v m).*1 = if decide (k ∈ m.*1) then m.*1 else m.*1 ++ [k].
Proof.
  induction m as [|[k0 v0] m IH]; csimpl.
  - destruct (decide (k ∈ [])) as [H|H]; [by apply elem_of_nil in H|done].
  - destruct (decide (k0 = k)) as [->|Hne]; csimpl.
    + rewrite decide_True by left. done.
    + rewrite IH. destruct (decide (k ∈ m.*1)) as [Hin|Hin].
      * rewrite decide_True by (by right). done.
      * rewrite decide_False; [done|]. intros [?|?]%elem_of_cons; congruence.
Qed.

Lemma filter_other k (l : list string) : k ∉ l → filter (λ k', k' ≠ k) l = l.
Proof.
  induction l as [|x l IH]; [done|]. intros [Hne Hl]%not_elem_of_cons.
  rewrite filter_cons, decide_True by done. by rewrite IH.
Qed.

Lemma map_delete_keys k m :
  NoDup m.*1 → (JsMap.delete k m).*1 = filter (λ k', k' ≠ k) m.*1.
Proof.
  induction m as [|[k0 v0] m IH]; [done|]. rewrite fmap_cons.
  intros [Hk0 Hnd]%NoDup_cons. cbn [JsMap.delete fst]. rewrite filter_cons.
  destruct (decide (k0 = k)) as [->|Hne].
  - rewrite decide_False by (by intros []). by rewrite filter_other.
  - rewrite decide_True by done. rewrite fmap_cons. cbn [fst]. by rewrite IH.
Qed.

Lemma map_get_delete k k' m :
  NoDup m.*1 →
  JsMap.get k (JsMap.delete k' m) = if decide (k' = k) then None else JsMap.get k m.
Proof.
  induction m as [|[k0 v0] m IH]; csimpl.
  - by destruct (decide (k' = k)).
  - intros [Hk0 Hnd]%NoDup_cons. destruct (decide (k0 = k')) as [->|Hne].
    + destruct (decide (k' = k)) as [->|]; [by apply map_get_None|done].
    + simpl. rewrite IH by done.
      destruct (decide (k0 = k)), (decide (k' = k)); congruence.
Qed.

End map.

(** *** Stores built by [add], [delete] and [clear] *)

Lemma set_elem {V} k (v : V) e m : e ∈ JsMap.set k v m → e = (k, v) ∨ e ∈ m.
Proof.
  induction m as [|[k0 v0] m IH]; simpl.
  - intros ->%list_elem_of_singleton. by left.
  - destruct (decide (k0 = k)) as [->|Hne].
    + intros [->|Hin]%elem_of_cons; [by left|right; by right].
    + intros [->|Hin]%elem_of_cons; [right; left|].
      destruct (IH Hin) as [?|?]; [by left|right; by right].
Qed.

Lemma delete_sublist {V} k (m : list (string * V)) : JsMap.delete k m `sublist_of` m.
Proof.
  induction m as [|[k0 v0] m IH]; simpl; [done|].
  destruct (decide (k0 = k)); [by apply sublist_cons|by apply sublist_skip].
Qed.

Lemma step_well_keyed st o : well_keyed st → well_keyed (step st o).
Proof.
  intros [Hnd Hall]. destruct o as [now d|k|]; simpl.
  - split.
    + unfold add. rewrite map_set_keys. case_decide; [done|].
      apply NoDup_app. split_and!; [done| |apply NoDup_singleton].
      intros y Hy ->%list_elem_of_singleton. done.
    + apply Forall_forall. intros e [->|Hin]%set_elem; [done|].
      by apply (proj1 (Forall_forall _ _) Hall).
  - split.
    + eapply sublist_NoDup; [exact Hnd|]. apply fmap_sublist, delete_sublist.
    + apply Forall_forall. intros e Hin.
      apply (proj1 (Forall_forall _ _) Hall).
      by eapply elem_of_sublist; [|apply delete_sublist].
  - split; [apply NoDup_nil_2|constructor].
Qed.

Lemma run_well_keyed ops : well_keyed (run ops).
Proof.
  unfold run. assert (well_keyed empty) as H0 by (split; [apply NoDup_nil_2|constructor]).
  revert H0. generalize empty. induction ops as [|o ops IH]; intros st Hst; simpl; [done|].
  by apply IH, step_well_keyed.
Qed.

Lemma ids_keys st : well_keyed st → ids st = st.*1.
Proof.
  intros [_ Hall]. unfold ids, all, JsMap.values.
  induction Hall as [|[k e] st He _ IH]; csimpl; [done|]. simpl in He. by rewrite He, IH.
Qed.

(** *** [add] *)

(** X27: after [add], [get] returns the document under its id, with
    [updatedAt] the time of this call and [storedAt] the time of the first
    storage (kept from the stored entry when it has one); other ids are as
    before. *)
Theorem store_add_get st now d :
  ∃ e', get (add st now d) (Document.id d) = Some e'
    ∧ document e' = d ∧ updatedAt e' = now
    ∧ match get st (Document.id d) with
      | Some e => storedAt e ≠ EmptyString → storedAt e' = storedAt e
      | None => storedAt e' = now
      end
    ∧ ∀ id', id' ≠ Document.id d → get (add st now d) id' = get st id'.
Proof.
  eexists. unfold get, add. rewrite map_get_set, decide_True by done.
  split; [done|]. split_and!; [done|done| |].
  - simpl. destruct (JsMap.get _ st) as [e|]; [|done].
    intros Hne. destruct (String.eqb_spec (storedAt e) EmptyString); done.
  - intros id' Hne. rewrite map_get_set, decide_False; done.
Qed.

(** X28: in a store built by [add], [delete] and [clear], [all] lists every
    id once, in insertion order: [add] of a stored id keeps the order and the
    count, [add] of a new id puts it last and raises the count by one. *)
Theorem store_add_all ops now d :
  let st := run ops in
  ids (add st now d)
  = (if has st (Document.id d) then ids st else ids st ++ [Document.id d])
  ∧ NoDup (ids (add st now d))
  ∧ count (add st now d) = (if has st (Document.id d) then count st else S (count st)).
Proof.
  intros st. pose proof (run_well_keyed ops) as Hst. fold st in Hst.
  pose proof (step_well_keyed st (Add now d) Hst) as Hst'. simpl in Hst'.
  pose proof (ids_keys _ Hst) as Hids. pose proof (ids_keys _ Hst') as Hids'.
  assert (count st = length st.*1) as Hcount by (by rewrite length_fmap).
  assert (count (add st now d) = length (add st now d).*1) as Hcount'
    by (by rewrite length_fmap).
  assert (has st (Document.id d) = bool_decide (Document.id d ∈ st.*1)) as Hhas
    by apply map_has.
  destruct Hst' as [Hnd' _].
  assert ((add st now d).*1 = if decide (Document.id d ∈ st.*1) then st.*1
                              else st.*1 ++ [Document.id d]) as Hkeys
    by apply map_set_keys.
  rewrite Hids, Hids', Hcount, Hcount', Hhas. rewrite Hkeys in *.
  destruct (decide (Document.id d ∈ st.*1)) as [Hin|Hin].
  - by rewrite bool_decide_eq_true_2.
  - rewrite bool_decide_eq_false_2 by done. split_and!; [done|done|].
    rewrite length_app. simpl. lia.
Qed.

(** *** [delete] *)

(** X29: [delete] returns whether the id was stored; afterwards the id is
    gone, the other documents and their order are as before, and the count is
    one less when it was stored. *)
Theorem store_delete ops k :
  let st := run ops in
  let r := delete st k in
  r.2 = has st k
  ∧ get r.1 k = None
  ∧ (∀ k', k' ≠ k → get r.1 k' = get st k')
  ∧ (count r.1 + (if has st k then 1 else 0) = count st)%nat
  ∧ ids r.1 = filter (λ k', k' ≠ k) (ids st).
Proof.
  intros st r. pose proof (run_well_keyed ops) as Hst. fold st in Hst.
  pose proof (step_well_keyed st (Delete k) Hst) as Hst'. simpl in Hst'. fold r in Hst'.
  destruct Hst as [Hnd Hall]. unfold r, delete, get. simpl. split_and!.
  - done.
  - rewrite map_get_delete, decide_True; done.
  - intros k' Hne. rewrite map_get_delete, decide_False; done.
  - unfold count, JsMap.size.
    rewrite <-(length_fmap fst (JsMap.delete k st)), <-(length_fmap fst st).
    rewrite map_delete_keys by done. unfold has. rewrite map_has.
    destruct (decide (k ∈ st.*1)) as [Hin|Hin].
    + rewrite bool_decide_eq_true_2 by done.
      apply list_elem_of_split in Hin as (l1 & l2 & Hsplit). rewrite Hsplit in *.
      apply NoDup_app in Hnd as (_ & Hl1 & [Hk2 _]%NoDup_cons).
      rewrite filter_app, filter_cons, decide_False by (by intros []).
      rewrite !filter_other; [rewrite !length_app; simpl; lia|done|].
      intros Hk1. by apply (Hl1 k); [|left].
    + rewrite bool_decide_eq_false_2 by done. rewrite filter_other by done. lia.
  - rewrite !ids_keys; [by apply map_delete_keys|done|exact Hst'].
Qed.

End StoreProps.

(** ** Indexing a document *)

Module ProviderProps.
Import ContainerFacts IndexFacts SearchFacts TokenFacts RoundTrip SearchExtra IndexExtra
  SearchCoverage ChunkExtra.
Import SearchIndex.

(** *** Chunk ids are distinct *)

Lemma to_uint_nonnil n : Nat.to_uint n ≠ Decimal.Nil.
Proof.
  pose proof (DecimalNat.Unsigned.to_of (Nat.to_uint n)) as H.
  rewrite DecimalNat.Unsigned.of_to in H. rewrite H. unfold Decimal.unorm.
  by destruct (Decimal.nzhead _).
Qed.

Lemma of_nat_inj n m : Js.of_nat n = Js.of_nat m → n = m.
Proof.
  unfold Js.of_nat. intros Heq. apply DecimalNat.Unsigned.to_uint_inj.
  assert (Some (Nat.to_uint n) = Some (Nat.to_uint m)) as [= ->]; [|done].
  rewrite <-!NilZero.usu by apply to_uint_nonnil. by rewrite Heq.
Qed.

Lemma append_inj_l a x y : a +:+ x = a +:+ y → x = y.
Proof.
  induction a as [|c a IH]; [done|]. rewrite !append_cons. intros [= H]. by apply IH.
Qed.

Lemma chunk_id_inj document i j :
  ChunkingUtils.chunk_id document i = ChunkingUtils.chunk_id document j → i = j.
Proof.
  unfold ChunkingUtils.chunk_id. intros H%append_inj_l%append_inj_l. by apply of_nat_inj.
Qed.

(** X16: the chunks of a document have pairwise distinct ids. *)
Theorem chunk_ids_distinct cfg document :
  NoDup (id <$> ChunkingUtils.chunk cfg document).
Proof.
  rewrite chunk_ids_seq.
  apply NoDup_fmap_2; [|apply NoDup_seq]. intros i j. apply chunk_id_inj.
Qed.

(** *** The index after [indexDocument] *)

Lemma adds_app cs x ix : fold_left add (cs ++ [x]) ix = add (fold_left add cs ix) x.
Proof. by rewrite fold_left_app. Qed.

Lemma adds_lookup cs ix c :
  NoDup (id <$> cs) → c ∈ cs → chunks (fold_left add cs ix) !! id c = Some c.
Proof.
  induction cs as [|x cs IH] using rev_ind; [by intros _ ?%elem_of_nil|].
  rewrite fmap_app, adds_app. intros (Hnd & Hx & _)%NoDup_app. simpl.
  intros [Hc| ->%list_elem_of_singleton]%elem_of_app; [|apply lookup_insert_eq].
  rewrite lookup_insert_ne; [by apply IH|].
  intros Heq. apply (Hx (id c)); [by apply list_elem_of_fmap_2|]. rewrite <-Heq. left.
Qed.

Lemma adds_postings cs ix c token :
  c ∈ cs → token ∈ tokenize (content c) → id c ∈ postings (fold_left add cs ix) token.
Proof.
  induction cs as [|x cs IH] using rev_ind; [by intros ?%elem_of_nil|].
  rewrite adds_app, postings_add.
  intros [Hc| ->%list_elem_of_singleton]%elem_of_app Htok; [left; by apply IH|by right].
Qed.

(** X30: after [indexDocument], the document is in the store under its id,
    and searching a token of any of its chunks, without filters and with a
    limit of at least [count], returns that chunk. *)
Theorem index_document p now d c T limit :
  let p' := Provider.indexDocument p now d in
  c ∈ ChunkingUtils.chunk (Provider.chunking p) d →
  T ∈ tokenize (content c) →
  Z.of_nat (count (Provider.index p')) ≤ limit →
  DocumentStore.document <$> Provider.getDocument p' (Document.id d) = Some d
  ∧ ∃ r, r ∈ search (Provider.index p') T (Some limit) None ∧ chunk r = c.
Proof.
  intros p' Hc HT Hlimit. split.
  - unfold Provider.getDocument, DocumentStore.get, p'. simpl. unfold DocumentStore.add.
    rewrite StoreProps.map_get_set, decide_True by done. done.
  - destruct (stored_match_in_matches (Provider.index p') (id c) c T T None)
      as (r & Hr & Hchunk); [| | |done|].
    + apply adds_lookup; [|done]. rewrite chunk_ids_seq.
      apply NoDup_fmap_2; [|apply NoDup_seq]. intros i j. apply chunk_id_inj.
    + by apply adds_postings.
    + rewrite (tokenize_token _ _ HT). left.
    + exists r. split; [by apply matches_within_limit|done].
Qed.

Lemma index_document_witness :
  let p := Provider.new (Some 8) (Some 2) in
  let p' := Provider.indexDocument p "2024-01-01T00:00:00.000Z" Sample.three_paragraphs in
  let c := {| id := "d3-chunk-1"; documentId := "d3"; content := "bbbb"; title := None;
              startOffset := 4; endOffset := 12; metadata := Sample.meta "s" |} in
  DocumentStore.document <$> Provider.getDocument p' "d3" = Some Sample.three_paragraphs
  ∧ ∃ r, r ∈ search (Provider.index p') "bbbb" (Some 3) None ∧ chunk r = c.
Proof.
  intros p p' c.
  apply (index_document p "2024-01-01T00:00:00.000Z" Sample.three_paragraphs c "bbbb" 3).
  - vm_compute. right. left.
  - vm_compute. left.
  - vm_compute. discriminate.
Defined.

End ProviderProps.

(** ** Highlights *)

Module HighlightProps.
Import ContainerFacts IndexFacts IndexProps SearchFacts TokenFacts SearchExtra SearchCoverage
  LengthFacts SectionFacts.
Import SearchIndex.

Lemma split_ws_go_occurs cur in_sep s piece :
  piece ∈ Js.split_ws_go cur in_sep s → occurs piece (cur +:+ s).
Proof.
  revert cur in_sep. induction s as [|c s IH]; intros cur in_sep; simpl.
  - intros ->%list_elem_of_singleton. exists EmptyString, EmptyString.
    by rewrite !append_empty_r.
  - assert (∀ p, occurs p (EmptyString +:+ s) → occurs p (cur +:+ String c s)) as Hskip.
    { intros p (pre & post & Hs). exists (Js.snoc cur c +:+ pre), post.
      rewrite append_assoc, <-Hs. by rewrite append_snoc. }
    destruct (Js.is_space c).
    + destruct in_sep.
      * intros Hin%IH. by apply Hskip.
      * intros [->|Hin%IH]%elem_of_cons; [|by apply Hskip].
        by exists EmptyString, (String c s).
    + intros Hin%IH. by rewrite append_snoc in Hin.
Qed.

Lemma map_chars_app g a b : Js.map_chars g (a +:+ b) = Js.map_chars g a +:+ Js.map_chars g b.
Proof. induction a as [|c a IH]; [done|]. rewrite !append_cons. simpl. by rewrite IH. Qed.

Lemma map_chars_app_inv g s a b :
  Js.map_chars g s = a +:+ b →
  ∃ a' b', s = a' +:+ b' ∧ Js.map_chars g a' = a ∧ Js.map_chars g b' = b.
Proof.
  revert s. induction a as [|c a IH]; intros s.
  - intros Hs. by exists EmptyString, s.
  - rewrite append_cons. destruct s as [|d s]; [done|]. simpl. intros [= Hc Hs].
    destruct (IH s Hs) as (a' & b' & -> & Ha & Hb).
    exists (String d a'), b'. split_and!; [done| |done]. simpl. by rewrite Hc, Ha.
Qed.

Lemma blank_nonword_token c :
  Js.token_char (Js.blank_nonword c) = true → Js.blank_nonword c = c.
Proof. each_char c; intros; discriminate. Qed.

Lemma blank_nonword_tokens s :
  Js.all_chars Js.token_char (Js.map_chars Js.blank_nonword s) = true →
  Js.map_chars Js.blank_nonword s = s.
Proof.
  induction s as [|c s IH]; simpl; [done|].
  intros [Hc Hs]%andb_true_iff. by rewrite blank_nonword_token, IH.
Qed.

(** A token of a text stands in the lower-cased text. *)
Lemma token_occurs text token :
  token ∈ tokenize text → occurs token (Js.toLowerCase text).
Proof.
  intros Hin. pose proof (tokenize_elem _ _ Hin) as [_ Htok].
  unfold tokenize in Hin. apply list_elem_of_filter in Hin as [_ Hin].
  apply split_ws_go_occurs in Hin as (pre & post & Heq).
  change (EmptyString +:+ ?s) with s in Heq. unfold Js.replace_nonword in Heq.
  apply map_chars_app_inv in Heq as (pre' & rest & Hlow & _ & Hrest).
  apply map_chars_app_inv in Hrest as (tok' & post' & -> & Htok' & _).
  exists pre', post'. rewrite Hlow. do 2 f_equal.
  rewrite <-Htok'. symmetry. apply blank_nonword_tokens. by rewrite Htok'.
Qed.

Lemma prefix_app t post : String.prefix t (t +:+ post) = true.
Proof.
  induction t as [|c t IH]; [by destruct post|]. rewrite append_cons. simpl.
  by destruct (ascii_dec c c).
Qed.

Lemma find_from_eq t s pos :
  Js.find_from t s pos
  = if String.prefix t s then Some pos
    else match s with
         | EmptyString => None
         | String _ r => Js.find_from t r (S pos)
         end.
Proof. by destruct s. Qed.

Lemma find_from_occurs t s pos : occurs t s → is_Some (Js.find_from t s pos).
Proof.
  intros (pre & post & ->). revert pos. induction pre as [|c pre IH]; intros pos.
  - change (EmptyString +:+ ?s) with s. rewrite find_from_eq, prefix_app. by eexists.
  - rewrite append_cons, find_from_eq. destruct (String.prefix _ _); [by eexists|apply IH].
Qed.

Lemma indexOf_occurs s t : occurs t s → is_Some (Js.indexOf s t 0).
Proof. intros H. unfold Js.indexOf. simpl. by apply find_from_occurs. Qed.

(** The loop of one token only adds highlights, and adds one when the token
    is found and fewer than three are there. *)
Lemma highlight_loop_length room content lower token w index hl :
  (length hl ≤ length (highlight_loop room content lower token w index hl))%nat.
Proof.
  revert index hl. induction room as [|room IH]; intros index hl; simpl.
  - by destruct index.
  - destruct index as [i|]; [|done]. etrans; [|apply IH]. rewrite length_app. simpl. lia.
Qed.

Lemma highlight_loop_hit content lower token w i hl :
  (1 ≤ length (highlight_loop (3 - length hl) content lower token w (Some i) hl))%nat.
Proof.
  destruct (3 - length hl)%nat as [|room] eqn:E; simpl; [lia|].
  etrans; [|apply highlight_loop_length]. rewrite length_app. simpl. lia.
Qed.

Lemma getHighlights_nonempty content queryTokens w token :
  token ∈ queryTokens → occurs token (Js.toLowerCase content) →
  getHighlights content queryTokens w ≠ [].
Proof.
  intros Hin Hocc. unfold getHighlights.
  set (body := λ highlights token, highlight_loop _ _ _ _ _ _ _).
  assert (∀ tokens hl, (1 ≤ length hl)%nat → (1 ≤ length (fold_left body tokens hl))%nat)
    as Hkeep.
  { induction tokens as [|t tokens IH]; intros hl Hhl; simpl; [done|].
    apply IH. unfold body. etrans; [exact Hhl|apply highlight_loop_length]. }
  assert (∀ tokens hl, token ∈ tokens → (1 ≤ length (fold_left body tokens hl))%nat)
    as Hfind.
  { induction tokens as [|t tokens IH]; intros hl; [by intros ?%elem_of_nil|].
    intros [<-|Ht]%elem_of_cons; simpl; [|by apply IH].
    apply Hkeep. unfold body.
    destruct (indexOf_occurs _ _ Hocc) as [i ->]. apply highlight_loop_hit. }
  specialize (Hfind queryTokens [] Hin).
  intros Hnil. apply (f_equal length) in Hnil. revert Hnil.
  unfold Js.array_slice0, Js.rel_index. rewrite length_take.
  change (3 <? 0) with false. cbn iota. generalize dependent (fold_left body queryTokens []).
  intros l Hl. cbn [length]. lia.
Qed.

(** X13: on an index kept consistent, every result has at least one
    highlight. *)
Theorem search_highlights_present ops query limit filters :
  disciplined empty ops = true →
  Forall (λ r, highlights r ≠ []) (search (run ops) query limit filters).
Proof.
  intros Hd.
  assert (consistent (run ops)) as Hcons
    by (apply disciplined_consistent; [apply empty_consistent|done]).
  apply Forall_forall. intros r Hr%search_elem.
  destruct (matches_elem _ _ _ _ Hr) as (k & v & Hin & Hk & ->).
  assert (k ∈ (raw_scores (run ops) (tokenize query)).*1) as Hkey.
  { apply list_elem_of_fmap. by exists (k, v). }
  apply raw_scores_keys in Hkey as (token & Htok & Hpost).
  destruct (Hcons _ _ Hpost) as (c & Hc & Hcontent).
  assert (c = chunk r) as -> by congruence.
  eapply getHighlights_nonempty; [exact Htok|by apply token_occurs].
Qed.

Lemma search_highlights_present_witness :
  let ops := [Add (Sample.chunk_of "a" "Foo, bar"); Add (Sample.chunk_of "b" "baz")] in
  Forall (λ r, highlights r ≠ []) (search (run ops) "foo BAZ" None None).
Proof.
  intros ops. apply (search_highlights_present ops "foo BAZ" None None).
  vm_compute. reflexivity.
Defined.

(** *** A highlight is a short window *)

Lemma len_slice s start stop :
  0 ≤ start → 0 ≤ stop → Js.len (Js.slice s start (Some stop)) ≤ Z.max 0 (stop - start).
Proof.
  intros Hstart Hstop. unfold Js.slice, Js.rel_index.
  destruct (start <? 0) eqn:E1; [lia|]. destruct (stop <? 0) eqn:E2; [lia|].
  pose proof (length_substring (Z.to_nat (Z.min start (Js.len s)))
    (Z.to_nat (Z.min stop (Js.len s) - Z.min start (Js.len s))) s).
  pose proof (len_nonneg s). unfold Js.len in *. lia.
Qed.

Lemma len_snippet content token w i :
  0 ≤ w → Js.len (snippet content token w i) ≤ Js.len token + 2 * w + 6.
Proof.
  intros Hw. unfold snippet.
  set (start := Z.max 0 (Z.of_nat i - w)).
  set (stop := Z.min (Js.len content) (Z.of_nat i + Js.len token + w)).
  pose proof (len_nonneg content). pose proof (len_nonneg token).
  pose proof (len_slice content start stop) as Hslice.
  assert (Js.len (Js.slice content start (Some stop)) ≤ Js.len token + 2 * w) as Hs
    by (unfold start, stop in *; lia).
  destruct (0 <? start), (stop <? Js.len content); rewrite ?len_append;
    change (Js.len "...") with 3; lia.
Qed.

Lemma highlight_loop_elem room content lower token w index hl h (P : string → Prop) :
  Forall P hl → (∀ i, P (snippet content token w i)) →
  h ∈ highlight_loop room content lower token w index hl → P h.
Proof.
  intros Hhl Hsn. revert index hl Hhl. induction room as [|room IH]; intros index hl Hhl; simpl.
  - destruct index; intros Hin; by apply (proj1 (Forall_forall _ _) Hhl).
  - destruct index as [i|]; [|intros Hin; by apply (proj1 (Forall_forall _ _) Hhl)].
    apply IH. apply Forall_app. split; [done|]. by apply Forall_singleton.
Qed.

Lemma getHighlights_short content queryTokens h :
  h ∈ getHighlights content queryTokens None →
  ∃ token, token ∈ queryTokens ∧ Js.len h ≤ Js.len token + 106.
Proof.
  unfold getHighlights. intros Hin.
  pose proof (elem_of_sublist _ _ _ Hin (array_slice0_sublist _ _)) as Hin'. clear Hin.
  revert Hin'. simpl default.
  set (body := λ highlights token, highlight_loop _ _ _ _ _ _ _).
  assert (∀ tokens hl (P : string → Prop),
            Forall P hl →
            (∀ token i, token ∈ tokens → P (snippet content token 50 i)) →
            Forall P (fold_left body tokens hl)) as Hloop.
  { induction tokens as [|t tokens IH]; intros hl P Hhl Hsn; simpl; [done|].
    apply IH; [|intros token i Ht; apply Hsn; by right].
    apply Forall_forall. intros x Hx. unfold body in Hx.
    eapply highlight_loop_elem; [exact Hhl| |exact Hx]. intros i. apply Hsn. left. }
  intros Hin.
  assert (Forall (λ h, ∃ token, token ∈ queryTokens ∧ Js.len h ≤ Js.len token + 106)
            (fold_left body queryTokens [])) as Hall.
  { apply Hloop; [constructor|]. intros token i Ht. exists token. split; [done|].
    pose proof (len_snippet content token 50 i). lia. }
  by apply (proj1 (Forall_forall _ _) Hall).
Qed.

(** X14: a highlight is a window around a query token: it has at most 106
    characters more than that token (50 on each side and two ellipses). *)
Theorem search_highlights_short ix query limit filters :
  Forall (λ r, Forall (λ h, ∃ token, token ∈ tokenize query
                            ∧ Js.len h ≤ Js.len token + 106) (highlights r))
         (search ix query limit filters).
Proof.
  apply Forall_forall. intros r Hr%search_elem.
  destruct (matches_elem _ _ _ _ Hr) as (k & v & _ & _ & ->).
  apply Forall_forall. intros h. apply getHighlights_short.
Qed.

End HighlightProps.
